(** * A shell emulator over a tar archive: model of [emulator.py]

    The emulator keeps a current directory, the member list of a tar
    archive, a CSV action log and the text it has printed.  Python values
    are modelled as follows:

    - a [str] is a list of Unicode code points ([N]);
    - a [bytes] object is a list of [Byte.byte];
    - the member list is a list of records updated in place by index;
    - standard output is the text printed so far;
    - the CSV log is the list of rows written so far.

    The first part models the Python library operations the emulator
    calls ([str] methods, [posixpath], the UTF-8 codec, [tarfile] lookup
    and file objects, links included);
    the second part is the emulator itself, function by function; the
    third part defines the words the properties are stated in; the last
    part states and proves the properties. *)

From Stdlib.Strings Require Import Byte Ascii String.
From stdpp Require Import base tactics option numbers list sorting gmap pretty.

Local Open Scope N_scope.
Local Open Scope list_scope.

Abbreviation char := N (only parsing).
Abbreviation str := (list N) (only parsing).
Abbreviation bytes := (list byte) (only parsing).

(** ** Python [str] operations *)

Module Py.

(** An ASCII literal as a [str]. *)
Definition lit (s : string) : str :=
  (λ a, N_of_ascii a) <$> list_ascii_of_string s.

Definition SLASH : char := 47.
Definition LF : char := 10.
Definition REPLACEMENT : char := 0xFFFD.

(** [s.startswith(p)] *)
Fixpoint startswith (s p : str) {struct p} : bool :=
  match p, s with
  | [], _ => true
  | _ :: _, [] => false
  | c :: p', d :: s' => (c =? d) && startswith s' p'
  end.

(** [s.endswith(p)] *)
Definition endswith (s p : str) : bool :=
  startswith (reverse s) (reverse p).

Fixpoint dropwhile (f : char → bool) (s : str) : str :=
  match s with
  | [] => []
  | c :: s' => if f c then dropwhile f s' else s
  end.

(** [s.lstrip(chars)], [s.rstrip(chars)] and [s.strip(chars)] for the set
    of characters accepted by [f]. *)
Definition lstrip_by (f : char → bool) (s : str) : str := dropwhile f s.
Definition rstrip_by (f : char → bool) (s : str) : str :=
  reverse (dropwhile f (reverse s)).
Definition strip_by (f : char → bool) (s : str) : str :=
  lstrip_by f (rstrip_by f s).

Definition is_slash (c : char) : bool := c =? SLASH.

(** [str.isspace] for one character: the code points Python treats as
    white space in [split()], [strip()] and [rstrip()]. *)
Definition isspace (c : char) : bool :=
  ((0x09 <=? c) && (c <=? 0x0D)) || ((0x1C <=? c) && (c <=? 0x20))
  || (c =? 0x85) || (c =? 0xA0) || (c =? 0x1680)
  || ((0x2000 <=? c) && (c <=? 0x200A))
  || (c =? 0x2028) || (c =? 0x2029) || (c =? 0x202F) || (c =? 0x205F)
  || (c =? 0x3000).

(** [s.strip()] and [s.rstrip()] *)
Definition strip (s : str) : str := strip_by isspace s.
Definition rstrip (s : str) : str := rstrip_by isspace s.

(** [s.split(sep)] for a one-character separator: never empty, the empty
    string splits into one empty field. *)
Fixpoint split_on (sep : char) (s : str) : list str :=
  match s with
  | [] => [[]]
  | c :: s' =>
      if c =? sep then [] :: split_on sep s'
      else match split_on sep s' with
           | f :: fs => (c :: f) :: fs
           | [] => [[c]]
           end
  end.

(** [sep.join(fields)] for a one-character separator. *)
Fixpoint join_with (sep : char) (fields : list str) : str :=
  match fields with
  | [] => []
  | [f] => f
  | f :: fs => f ++ sep :: join_with sep fs
  end.

(** [s.split()]: the maximal runs of non-space characters.  [tokens]
    returns the run the string starts with and the runs after it. *)
Definition push_token (cur : str) (rest : list str) : list str :=
  match cur with [] => rest | _ :: _ => cur :: rest end.

Fixpoint tokens (s : str) : str * list str :=
  match s with
  | [] => ([], [])
  | c :: s' =>
      let '(cur, rest) := tokens s' in
      if isspace c then ([], push_token cur rest) else (c :: cur, rest)
  end.

Definition split (s : str) : list str :=
  let '(cur, rest) := tokens s in push_token cur rest.

(** [s.count(c)] for a one-character pattern. *)
Definition count (c : char) (s : str) : nat :=
  length (filter (λ d, d = c) s).

(** [str(n)] for a non-negative integer. *)
Definition str_of_nat (n : nat) : str := lit (pretty n).

(** Comparison of two [str] by code points, as [sorted] uses it. *)
Fixpoint str_leb (a b : str) : bool :=
  match a, b with
  | [], _ => true
  | _ :: _, [] => false
  | c :: a', d :: b' => (c <? d) || ((c =? d) && str_leb a' b')
  end.

Definition str_le (a b : str) : Prop := str_leb a b = true.

Global Instance str_le_dec a b : Decision (str_le a b).
Proof. unfold str_le. apply _. Defined.

(** [sorted(s)] for a set of strings. *)
Definition sorted (s : gset str) : list str :=
  merge_sort str_le (elements s).

(** ** [posixpath] *)

(** [os.path.join(a, b)] *)
Definition path_join (a b : str) : str :=
  if startswith b [SLASH] then b
  else if bool_decide (a = []) || endswith a [SLASH] then a ++ b
  else a ++ SLASH :: b.

Definition DOT : str := [46].
Definition DOTDOT : str := [46; 46].

(** One iteration of the loop of [normpath] over the components;
    [initial] is the number of leading slashes kept (0, 1 or 2). *)
Definition normpath_step (initial : nat) (new_comps : list str) (comp : str)
  : list str :=
  if bool_decide (comp = []) || bool_decide (comp = DOT) then new_comps
  else if bool_decide (comp ≠ DOTDOT)
          || (bool_decide (initial = 0%nat) && bool_decide (new_comps = []))
          || bool_decide (last new_comps = Some DOTDOT)
       then new_comps ++ [comp]
       else removelast new_comps.

Definition initial_slashes (path : str) : nat :=
  if startswith path [SLASH] then
    if startswith path [SLASH; SLASH]
       && negb (startswith path [SLASH; SLASH; SLASH])
    then 2%nat else 1%nat
  else 0%nat.

(** [os.path.normpath(path)] *)
Definition normpath (path : str) : str :=
  if bool_decide (path = []) then DOT
  else
    let initial := initial_slashes path in
    let comps := foldl (normpath_step initial) [] (split_on SLASH path) in
    let path' := replicate initial SLASH ++ join_with SLASH comps in
    if bool_decide (path' = []) then DOT else path'.

(** [os.path.dirname(p)]: the path up to its last slash, without the
    slashes it ends with unless it is slashes only. *)
Definition dirname (p : str) : str :=
  let front := reverse (dropwhile (λ c, negb (is_slash c)) (reverse p)) in
  if bool_decide (front ≠ [])
     && bool_decide (front ≠ replicate (length front) SLASH)
  then rstrip_by is_slash front else front.

(** ** The UTF-8 codec *)

(** State of the decoder between two bytes: at a character boundary, or
    inside a sequence with [k] continuation bytes still to come, the bits
    read so far in [cp], and the range [lo..hi] allowed for the next
    byte. *)
Inductive dstate :=
  | Start
  | Need (k : nat) (cp lo hi : N).

(** A byte read at a character boundary.  The result lists what is
    produced ([Some c]: the character [c]; [None]: an ill-formed
    sequence ends here) and gives the next state. *)
Definition start_byte (b : N) : list (option char) * dstate :=
  if b <? 0x80 then ([Some b], Start)
  else if b <? 0xC2 then ([None], Start)
  else if b <? 0xE0 then ([], Need 1 (b - 0xC0) 0x80 0xBF)
  else if b <? 0xF0 then
    ([], Need 2 (b - 0xE0) (if b =? 0xE0 then 0xA0 else 0x80)
                           (if b =? 0xED then 0x9F else 0xBF))
  else if b <? 0xF5 then
    ([], Need 3 (b - 0xF0) (if b =? 0xF0 then 0x90 else 0x80)
                           (if b =? 0xF4 then 0x8F else 0xBF))
  else ([None], Start).

(** One byte of input.  A byte that cannot continue the pending sequence
    ends it as ill-formed and is then read again at a boundary. *)
Definition decode_byte (st : dstate) (b : N) : list (option char) * dstate :=
  match st with
  | Start => start_byte b
  | Need k cp lo hi =>
      if (lo <=? b) && (b <=? hi) then
        let cp' := cp * 64 + (b - 0x80) in
        match k with
        | 0%nat | 1%nat => ([Some cp'], Start)
        | S k' => ([], Need k' cp' 0x80 0xBF)
        end
      else
        let '(out, st') := start_byte b in (None :: out, st')
  end.

(** The whole input: each maximal ill-formed subsequence gives one
    [None]; input that stops inside a sequence gives a final [None]. *)
Fixpoint utf8_scan (st : dstate) (bs : bytes) : list (option char) :=
  match bs with
  | [] => match st with Start => [] | Need _ _ _ _ => [None] end
  | b :: bs' =>
      let '(out, st') := decode_byte st (Byte.to_N b) in
      out ++ utf8_scan st' bs'
  end.

(** [bs.decode('utf-8')]: [None] stands for [UnicodeDecodeError]. *)
Definition decode (bs : bytes) : option str :=
  mapM id (utf8_scan Start bs).

(** [bs.decode('utf-8', errors='replace')] *)
Definition decode_replace (bs : bytes) : str :=
  default REPLACEMENT <$> utf8_scan Start bs.

Definition byte_of_N (n : N) : byte := default x00 (Byte.of_N n).

(** The UTF-8 form of one character; surrogates and values above
    U+10FFFF have none. *)
Definition encode_char (c : char) : option bytes :=
  if c <? 0x80 then Some [byte_of_N c]
  else if c <? 0x800 then
    Some [byte_of_N (0xC0 + c / 64); byte_of_N (0x80 + c mod 64)]
  else if c <? 0x10000 then
    if (0xD800 <=? c) && (c <? 0xE000) then None
    else Some [byte_of_N (0xE0 + c / 4096);
               byte_of_N (0x80 + (c / 64) mod 64);
               byte_of_N (0x80 + c mod 64)]
  else if c <? 0x110000 then
    Some [byte_of_N (0xF0 + c / 262144);
          byte_of_N (0x80 + (c / 4096) mod 64);
          byte_of_N (0x80 + (c / 64) mod 64);
          byte_of_N (0x80 + c mod 64)]
  else None.

(** [s.encode('utf-8')]: [None] stands for [UnicodeEncodeError]. *)
Definition encode (s : str) : option bytes :=
  @concat byte <$> mapM encode_char s.

(** ** Binary file objects *)

(** [f.readline()] on the bytes still unread: the line, up to and
    including the first newline byte, and what is left. *)
Fixpoint readline (bs : bytes) : bytes * bytes :=
  match bs with
  | [] => ([], [])
  | b :: bs' =>
      if Byte.eqb b x0a then ([b], bs')
      else let '(line, rest) := readline bs' in (b :: line, rest)
  end.

End Py.

(** ** [tarfile] *)

Module Tar.

(** The type byte of a member, with the constants of [tarfile]. *)
Definition REGTYPE : byte := x30.
Definition AREGTYPE : byte := x00.
Definition LNKTYPE : byte := x31.
Definition SYMTYPE : byte := x32.
Definition CHRTYPE : byte := x33.
Definition BLKTYPE : byte := x34.
Definition DIRTYPE : byte := x35.
Definition FIFOTYPE : byte := x36.
Definition CONTTYPE : byte := x37.
Definition GNUTYPE_LONGNAME : byte := x4c.
Definition GNUTYPE_LONGLINK : byte := x4b.
Definition GNUTYPE_SPARSE : byte := x53.

Definition SUPPORTED_TYPES : list byte :=
  [REGTYPE; AREGTYPE; LNKTYPE; SYMTYPE; DIRTYPE; FIFOTYPE; CONTTYPE;
   CHRTYPE; BLKTYPE; GNUTYPE_LONGNAME; GNUTYPE_LONGLINK; GNUTYPE_SPARSE].

Definition REGULAR_TYPES : list byte :=
  [REGTYPE; AREGTYPE; CONTTYPE; GNUTYPE_SPARSE].

(** [t in types] *)
Definition type_in (t : byte) (types : list byte) : bool :=
  existsb (Byte.eqb t) types.

(** A member of the archive: its stored name, its owner, its type, the
    name it links to, and the bytes stored for it. *)
Record TarInfo := mkTarInfo {
  name : str;
  uname : str;
  type : byte;
  linkname : str;
  data : bytes;
}.

Definition set_uname (m : TarInfo) (owner : str) : TarInfo :=
  {| name := name m; uname := owner; type := type m;
     linkname := linkname m; data := data m |}.

Definition isreg (m : TarInfo) : bool := type_in (type m) REGULAR_TYPES.
Definition islnk (m : TarInfo) : bool := Byte.eqb (type m) LNKTYPE.
Definition issym (m : TarInfo) : bool := Byte.eqb (type m) SYMTYPE.

(** A [TarInfo] object of the member list [tar.getmembers()]: its place
    in the list and its fields.  Python hands the object itself around
    and finds its place again with [members.index]. *)
Definition member_ref : Type := nat * TarInfo.

(** [tar._getmember(n, tarinfo=limit, normalize=normalize)]: the last
    member with the name [n], among those before the place [limit] when
    one is given, names compared after [normpath] when [normalize] is
    set. *)
Definition _getmember (members : list TarInfo) (n : str)
    (limit : option nat) (normalize : bool) : option member_ref :=
  let members :=
    match limit with Some i => take i members | None => members end in
  let n := if normalize then Py.normpath n else n in
  (λ found, (length members - S found.1, found.2)%nat)
  <$> list_find (λ member,
                   (if normalize then Py.normpath (name member)
                    else name member) = n)
                (reverse members).

(** [tar.getmember(n)]: the last member stored under exactly the name
    [n] without its trailing slashes; [None] stands for [KeyError]. *)
Definition getmember (members : list TarInfo) (n : str) : option member_ref :=
  _getmember members (Py.rstrip_by Py.is_slash n) None false.

(** [tar._find_link_target(tarinfo)]: a symbolic link is looked up in
    the whole archive, relative to the directory of the link; a hard
    link among the members stored before it.  [None] stands for
    [KeyError]. *)
Definition _find_link_target (members : list TarInfo) (tarinfo : member_ref)
  : option member_ref :=
  if issym tarinfo.2 then
    let linkname :=
      Py.join_with Py.SLASH
        (filter (λ s, s ≠ [])
                [Py.dirname (name tarinfo.2); linkname tarinfo.2]) in
    _getmember members linkname None true
  else
    _getmember members (linkname tarinfo.2) (Some tarinfo.1) true.

(** What [tar.extractfile(m)] gives: a file object over some bytes,
    [None], or an exception. *)
Inductive extracted :=
  | FileObject (f : bytes)
  | NoFileObject
  | KeyError
  | RecursionError.

(** The nesting of calls Python allows before it raises
    [RecursionError]: [sys.getrecursionlimit()], 1000 unless it is
    changed, which the emulator does not do. *)
Definition RECURSION_LIMIT : nat := 1000.

(** [tar.extractfile(tarinfo)] with [depth] more nested calls allowed:
    the bytes of a regular file or of a member of unknown type, the file
    object of its target for a link, [None] for a member without data
    (a directory, a FIFO, a device). *)
Fixpoint extractfile_within (depth : nat) (members : list TarInfo)
    (tarinfo : member_ref) : extracted :=
  if isreg tarinfo.2 || negb (type_in (type tarinfo.2) SUPPORTED_TYPES)
  then FileObject (data tarinfo.2)
  else if islnk tarinfo.2 || issym tarinfo.2 then
    match depth with
    | O => RecursionError
    | S depth' =>
        match _find_link_target members tarinfo with
        | None => KeyError
        | Some target => extractfile_within depth' members target
        end
    end
  else NoFileObject.

(** [tar.extractfile(tarinfo)] as the emulator calls it.  Python
    follows a chain of links by one nested call for each link.  The
    calls already active when the emulator reaches [extractfile] and
    those [extractfile] makes on the way, about a dozen, count against
    the limit in Python and are left out here: that makes a difference
    only for a chain of about 985 to 1000 links. *)
Definition extractfile (members : list TarInfo) (tarinfo : member_ref)
  : extracted :=
  extractfile_within RECURSION_LIMIT members tarinfo.

End Tar.

(** ** The emulator *)

Import Py Tar.

Record Emulator := mkEmulator {
  username : str;
  current_dir : str;
  members : list TarInfo;
  log : list (list str);
  stdout : str;
}.

(** What running a command leaves behind: the shell goes on, or the
    process has ended with an exit status. *)
Inductive outcome :=
  | Running (e : Emulator)
  | Exited (status : nat) (e : Emulator).

Definition state_of (o : outcome) : Emulator :=
  match o with Running e | Exited _ e => e end.

Definition set_current_dir (e : Emulator) (d : str) : Emulator :=
  {| username := username e; current_dir := d; members := members e;
     log := log e; stdout := stdout e |}.

Definition set_members (e : Emulator) (ms : list TarInfo) : Emulator :=
  {| username := username e; current_dir := current_dir e; members := ms;
     log := log e; stdout := stdout e |}.

(** [self.logger.writerow(row)] *)
Definition writerow (e : Emulator) (row : list str) : Emulator :=
  {| username := username e; current_dir := current_dir e;
     members := members e; log := log e ++ [row]; stdout := stdout e |}.

(** [print(s, end=t)] and [print(s)] *)
Definition print_end (e : Emulator) (s t : str) : Emulator :=
  {| username := username e; current_dir := current_dir e;
     members := members e; log := log e; stdout := stdout e ++ s ++ t |}.

Definition print (e : Emulator) (s : str) : Emulator := print_end e s [LF].

Definition normalize_member_name (n : str) : str :=
  if startswith n (lit "./") then drop 2 n else n.

(** The prefix [ls] looks for: the current directory without its outer
    slashes, followed by one slash unless it is empty. *)
Definition ls_prefix (d : str) : str :=
  let prefix := strip_by is_slash d in
  if bool_decide (prefix = []) then prefix else prefix ++ [SLASH].

(** The body of the first loop of [ls] for one member. *)
Definition ls_add (prefix : str) (contents : gset str) (member : TarInfo)
  : gset str :=
  let member_name := normalize_member_name (name member) in
  if startswith member_name prefix then
    let suffix := split_on SLASH (drop (length prefix) member_name) in
    let first := default [] (hd_error suffix) in
    if bool_decide (first = []) then contents else contents ∪ {[ first ]}
  else contents.

Definition ls_contents (e : Emulator) : gset str :=
  foldl (ls_add (ls_prefix (current_dir e))) ∅ (members e).

Definition ls (e : Emulator) : Emulator :=
  let e' := foldl (λ e item, print_end e item (lit "  ")) e
                  (sorted (ls_contents e)) in
  print e' [].

(** [os.path.normpath(os.path.join(self.current_dir, path))] *)
Definition resolve (e : Emulator) (path : str) : str :=
  normpath (path_join (current_dir e) path).

(** The prefix [cd] looks for. *)
Definition cd_prefix (new_path : str) : str :=
  normalize_member_name (strip_by is_slash new_path) ++ [SLASH].

Definition cd (e : Emulator) (path : str) : Emulator :=
  let new_path := resolve e path in
  if bool_decide (new_path = [SLASH]) then set_current_dir e [SLASH]
  else
    let prefix := cd_prefix new_path in
    if existsb (λ member,
                  startswith (normalize_member_name (name member)) prefix)
               (members e)
    then set_current_dir e new_path
    else print e (lit "cd: " ++ path ++ lit ": No such file or directory").

(** The name [head], [chown] and [wc] look up. *)
Definition lookup_name (e : Emulator) (filename : str) : str :=
  let filepath := resolve e filename in
  normalize_member_name (lstrip_by is_slash filepath).

(** The text of the [RecursionError] Python raises. *)
Definition RECURSION_TEXT : str := lit "maximum recursion depth exceeded".

(** The loop of [head]: at most [n] more lines of the bytes [f] still
    unread. *)
Fixpoint head_loop (n : nat) (filename : str) (f : bytes) (e : Emulator)
  : Emulator :=
  match n with
  | O => e
  | S n' =>
      let '(line, f') := readline f in
      match line with
      | [] => e
      | _ :: _ =>
          match decode line with
          | None =>
              print e (lit "head: error reading '" ++ filename
                       ++ lit "': invalid encoding")
          | Some decoded_line =>
              head_loop n' filename f' (print e (rstrip decoded_line))
          end
      end
  end.

Definition head (e : Emulator) (filename : str) : Emulator :=
  match getmember (members e) (lookup_name e filename) with
  | None =>
      print e (lit "head: cannot open '" ++ filename
               ++ lit "' for reading: No such file or directory")
  | Some member =>
      match extractfile (members e) member with
      | FileObject f => head_loop 10 filename f e
      | NoFileObject =>
          print e (lit "head: cannot open '" ++ filename
                   ++ lit "' for reading: Not a regular file")
      | KeyError =>
          print e (lit "head: cannot open '" ++ filename
                   ++ lit "' for reading: No such file or directory")
      | RecursionError =>
          print e (lit "head: error reading '" ++ filename ++ lit "': "
                   ++ RECURSION_TEXT)
      end
  end.

Definition chown (e : Emulator) (owner filename : str) : Emulator :=
  let member_name := lookup_name e filename in
  match list_find (λ member, name member = member_name) (members e) with
  | Some (i, member) =>
      print (set_members e (<[i := set_uname member owner]> (members e)))
            (lit "Changed owner of '" ++ filename ++ lit "' to '" ++ owner
             ++ lit "'")
  | None =>
      print e (lit "chown: cannot access '" ++ filename
               ++ lit "': No such file or directory")
  end.

(** [wc]; the branch for a text that cannot be encoded stands for the
    last [except] clause, with the name of the exception as its text. *)
Definition wc (e : Emulator) (filename : str) : Emulator :=
  let not_found :=
    print e (lit "wc: " ++ filename ++ lit ": No such file or directory") in
  match getmember (members e) (lookup_name e filename) with
  | None => not_found
  | Some member =>
      match extractfile (members e) member with
      | NoFileObject | KeyError => not_found
      | RecursionError =>
          print e (lit "wc: error reading '" ++ filename ++ lit "': "
                   ++ RECURSION_TEXT)
      | FileObject f =>
          let content := decode_replace f in
          let lines := count LF content in
          let words := length (split content) in
          match encode content with
          | None =>
              print e (lit "wc: error reading '" ++ filename
                       ++ lit "': UnicodeEncodeError")
          | Some encoded =>
              let bytes_ := length encoded in
              print e (str_of_nat lines ++ lit " " ++ str_of_nat words
                       ++ lit " " ++ str_of_nat bytes_ ++ lit " "
                       ++ filename)
          end
      end
  end.

(** [exit_shell] closes the log and the archive and ends the process
    with status 0. *)
Definition exit_shell (e : Emulator) : outcome := Exited 0 e.

(** The part of [execute_command] after the log row is written. *)
Definition dispatch (e : Emulator) (args : list str) : outcome :=
  match args with
  | [] => Running e
  | command :: operands =>
      if bool_decide (command = lit "ls") then Running (ls e)
      else if bool_decide (command = lit "cd") then
        match operands with
        | path :: _ => Running (cd e path)
        | [] => Running (print e (lit "cd: missing operand"))
        end
      else if bool_decide (command = lit "exit") then exit_shell e
      else if bool_decide (command = lit "head") then
        match operands with
        | filename :: _ => Running (head e filename)
        | [] => Running (print e (lit "head: missing file operand"))
        end
      else if bool_decide (command = lit "chown") then
        match operands with
        | owner :: filename :: _ => Running (chown e owner filename)
        | _ => Running (print e (lit "chown: missing operand"))
        end
      else if bool_decide (command = lit "wc") then
        match operands with
        | filename :: _ => Running (wc e filename)
        | [] => Running (print e (lit "wc: missing file operand"))
        end
      else Running (print e (command ++ lit ": command not found"))
  end.

Definition execute_command (e : Emulator) (command_line : str) : outcome :=
  let e := writerow e [username e; command_line] in
  dispatch e (split (strip command_line)).

(** The loop of [run_startup_script] over the lines of the script. *)
Fixpoint run_script_lines (e : Emulator) (commands : list str) : outcome :=
  match commands with
  | [] => Running e
  | command :: rest =>
      let command := strip command in
      if bool_decide (command = []) then run_script_lines e rest
      else match execute_command e command with
           | Running e' => run_script_lines e' rest
           | Exited st e' => Exited st e'
           end
  end.

(** What opening the script file and reading its lines gives: the
    lines, [FileNotFoundError], or another exception (the path is a
    directory or may not be read, the bytes are not text in the
    encoding of the locale). *)
Inductive script_file :=
  | ScriptLines (commands : list str)
  | ScriptNotFound
  | ScriptError.

(** [run_startup_script]: only [FileNotFoundError] is caught; any other
    exception of [open] or [readlines] ends the process with a traceback
    on the error stream and status 1, before any command is run. *)
Definition run_startup_script (e : Emulator) (script_path : str)
    (script : script_file) : outcome :=
  match script with
  | ScriptLines commands => run_script_lines e commands
  | ScriptNotFound =>
      Exited 1 (print e (lit "Startup script " ++ script_path
                         ++ lit " not found."))
  | ScriptError => Exited 1 e
  end.

(** [Emulator.__init__] *)
Definition init (user : str) (archive : list TarInfo) (script_path : str)
    (script : script_file) : outcome :=
  let e := {| username := user; current_dir := [SLASH]; members := archive;
              log := []; stdout := [] |} in
  let e := writerow e [lit "User"; lit "Action"] in
  run_startup_script e script_path script.

(** [shell_loop]: [inputs] are the lines typed before the input ends,
    by its end of file or by an interrupt from the keyboard; each is
    read after the prompt is shown. *)
Definition prompt (e : Emulator) : str :=
  username e ++ lit "@emulator:" ++ current_dir e ++ lit "$ ".

Fixpoint shell_loop (e : Emulator) (inputs : list str) : outcome :=
  let e := print_end e (prompt e) [] in
  match inputs with
  | [] => exit_shell e
  | command_line :: rest =>
      match execute_command e command_line with
      | Running e' => shell_loop e' rest
      | Exited st e' => Exited st e'
      end
  end.

(** [main] *)
Definition main (user : str) (archive : list TarInfo) (script_path : str)
    (script : script_file) (inputs : list str) : outcome :=
  match init user archive script_path script with
  | Running e => shell_loop e inputs
  | Exited st e => Exited st e
  end.

(** * Vocabulary of the properties *)

(** The first row of the log. *)
Definition HEADER : list str := [lit "User"; lit "Action"].

Definition set_stdout (e : Emulator) (out : str) : Emulator :=
  {| username := username e; current_dir := current_dir e;
     members := members e; log := log e; stdout := out |}.

(** Several [print] calls in a row. *)
Definition print_all (e : Emulator) (lines : list str) : Emulator :=
  foldl print e lines.

(** ** The archive of the test suite *)

Definition utf8 (s : string) : bytes := list_byte_of_string s.

Definition test_file (n : string) (content : bytes) : TarInfo :=
  {| name := lit n; uname := []; type := REGTYPE; linkname := [];
     data := content |}.

Definition test_fs : list TarInfo :=
  [ test_file "file1.txt"
      (utf8 "Hello World" ++ [x0a] ++ utf8 "This is a test" ++ [x0a]);
    test_file "file2.txt"
      (utf8 "Another file" ++ [x0a] ++ utf8 "With some text." ++ [x0a]);
    test_file "dir1/file3.txt"
      (utf8 "File in a directory." ++ [x0a] ++ utf8 "Line 2." ++ [x0a]);
    test_file "dir2/" [];
    test_file "dir2/file4.txt" (utf8 "Another file in dir2." ++ [x0a]);
    test_file "empty_dir/" [];
    test_file "empty.txt" [];
    test_file "binaryfile" [xff; xfe] ].

(** An emulator over that archive, at the root. *)
Definition test_emulator : Emulator :=
  {| username := lit "testuser"; current_dir := [SLASH];
     members := test_fs; log := [HEADER]; stdout := [] |}.

(** ** Commands and their operands *)

(** The number of operands each command reads. *)
Definition arity (command : str) : nat :=
  if bool_decide (command = lit "chown") then 2
  else if bool_decide (command = lit "cd") || bool_decide (command = lit "head")
          || bool_decide (command = lit "wc") then 1
  else 0.

(** The same emulator with other rows in its log. *)
Definition set_log (e : Emulator) (rows : list (list str)) : Emulator :=
  {| username := username e; current_dir := current_dir e;
     members := members e; log := rows; stdout := stdout e |}.

(** What a command does apart from its row in the log: whether the
    process goes on, the current directory, the members and the text
    printed. *)
Definition effect (o : outcome) : option nat * str * list TarInfo * str :=
  let e := state_of o in
  (match o with Running _ => None | Exited status _ => Some status end,
   current_dir e, members e, stdout e).

(** A change of the emulator an outcome carries. *)
Definition on_state (f : Emulator → Emulator) (o : outcome) : outcome :=
  match o with
  | Running e => Running (f e)
  | Exited status e => Exited status (f e)
  end.

(** ** The action log *)

(** Every handler leaves the user name and the log alone. *)
Definition same_session (e e' : Emulator) : Prop :=
  username e' = username e ∧ log e' = log e.

(** Only [exit] ends the process. *)
Definition is_exit (command_line : str) : bool :=
  bool_decide (hd_error (split (strip command_line)) = Some (lit "exit")).

(** The lines up to the first [exit], that one included. *)
Fixpoint until_exit (lines : list str) : list str :=
  match lines with
  | [] => []
  | l :: rest => if is_exit l then [l] else l :: until_exit rest
  end.

(** The lines of the script that are not blank, stripped. *)
Definition script_commands (script : list str) : list str :=
  filter (λ l, l ≠ []) (strip <$> script).

(** The lines given to [execute_command] in one run: the commands of
    the script, then the lines typed, up to the first [exit]. *)
Definition dispatched (script inputs : list str) : list str :=
  until_exit (script_commands script ++ inputs).

(** ** Directory listings *)

(** Strictly before, in the order of [sorted]. *)
Definition str_lt (a b : str) : Prop := str_le a b ∧ a ≠ b.

(** [x] is the first path segment of [rest]: the text before its first
    slash, or all of it when it has none. *)
Definition first_segment (rest x : str) : Prop :=
  (SLASH ∉ x) ∧ (rest = x ∨ ∃ tail, rest = x ++ SLASH :: tail).

(** [x] is a name directly below the prefix: the non-empty first segment
    of what follows the prefix in the stripped name of some member. *)
Definition child_of (prefix : str) (ms : list TarInfo) (x : str) : Prop :=
  x ≠ [] ∧ ∃ m rest, m ∈ ms
    ∧ normalize_member_name (name m) = prefix ++ rest
    ∧ first_segment rest x.

(** The names [ls] prints, in the order it prints them. *)
Definition ls_names (e : Emulator) : list str := sorted (ls_contents e).

(** The line the specification describes for [ls]: the names with two
    spaces between them, then a newline. *)
Definition two_space_separated (names : list str) : str :=
  match names with
  | [] => [LF]
  | n :: rest => n ++ concat ((λ x, lit "  " ++ x) <$> rest) ++ [LF]
  end.

(** An archive as [tar -cf fs.tar .] writes it: every name starts with
    a dot and a slash. *)
Definition dot_slash_fs : list TarInfo :=
  [ test_file "./file1.txt" (utf8 "Hello" ++ [x0a]);
    test_file "./dir1/file3.txt" (utf8 "Line 1" ++ [x0a]) ].

Definition dot_slash_emulator : Emulator :=
  {| username := lit "testuser"; current_dir := [SLASH];
     members := dot_slash_fs; log := [HEADER]; stdout := [] |}.

(** ** Text and bytes *)

(** A Unicode scalar value: a code point that is not a surrogate. *)
Definition scalar (c : char) : Prop :=
  c < 0xD800 ∨ (0xE000 ≤ c ∧ c < 0x110000).

(** What the decoder knows inside a sequence: [k] is 1, 2 or 3, the next
    byte must be a continuation byte, and whatever bytes complete the
    sequence, the character lies in [lo_cp, hi_cp), a range of scalar
    values outside ASCII. *)
Definition st_ok (st : dstate) : Prop :=
  match st with
  | Start => True
  | Need k cp lo hi =>
      (1 ≤ k ≤ 3)%nat ∧ 0x80 ≤ lo ∧ lo ≤ hi ∧ hi ≤ 0xBF
      ∧ let m := 64 ^ N.of_nat (k - 1) in
        let lo_cp := (cp * 64 + (lo - 0x80)) * m in
        let hi_cp := (cp * 64 + (hi - 0x80) + 1) * m in
        0x80 ≤ lo_cp
        ∧ (hi_cp ≤ 0xD800 ∨ (0xE000 ≤ lo_cp ∧ hi_cp ≤ 0x110000))
  end.

(** What one byte [b] may produce: scalar values, and an ASCII character
    only as the byte itself. *)
Definition out_ok (b : N) (o : option char) : Prop :=
  ∀ c, o = Some c → scalar c ∧ (c < 0x80 → c = b).

(** The lines of a file as [readline] returns them one after the other:
    each ends with its newline byte, except a last line without one. *)
Fixpoint lines_of (bs : bytes) : list bytes :=
  match bs with
  | [] => []
  | b :: bs' =>
      if Byte.eqb b x0a then [b] :: lines_of bs'
      else match lines_of bs' with
           | [] => [[b]]
           | l :: ls => (b :: l) :: ls
           end
  end.

(** [head] over the lines it reads, one after the other. *)
Fixpoint head_lines (filename : str) (lines : list bytes) (e : Emulator)
  : Emulator :=
  match lines with
  | [] => e
  | line :: rest =>
      match decode line with
      | None =>
          print e (lit "head: error reading '" ++ filename
                   ++ lit "': invalid encoding")
      | Some decoded_line =>
          head_lines filename rest (print e (rstrip decoded_line))
      end
  end.

(** Each line but a last one without newline ends with its only newline
    byte. *)
Definition is_line (l : bytes) : Prop :=
  ∃ body, (x0a ∉ body) ∧ (l = body ++ [x0a] ∨ (l = body ∧ body ≠ [])).

(** A decoded line as the specification shows it: without its trailing
    newline, otherwise untouched. *)
Definition chomp (t : str) : str :=
  match last t with
  | Some c => if c =? LF then removelast t else t
  | None => t
  end.

(** An archive with a file whose only line ends in a space, and one
    whose second line is not UTF-8. *)
Definition odd_fs : list TarInfo :=
  [ test_file "notes.txt" (utf8 "a " ++ [x0a]);
    test_file "mixed.bin" (utf8 "ok" ++ [x0a; xff; x0a]) ].

Definition odd_emulator : Emulator :=
  {| username := lit "testuser"; current_dir := [SLASH];
     members := odd_fs; log := [HEADER]; stdout := [] |}.

Definition invalid_encoding (filename : str) : str :=
  lit "head: error reading '" ++ filename ++ lit "': invalid encoding".

(** ** Paths *)

(** A component [normpath] keeps: not empty, not a dot, without slash. *)
Definition segment (c : str) : Prop := c ≠ [] ∧ c ≠ DOT ∧ SLASH ∉ c.

(** A component that names something: a segment other than two dots. *)
Definition ordinary (c : str) : Prop := segment c ∧ c ≠ DOTDOT.

(** An absolute normal path: one or two slashes, then ordinary
    components with one slash between them. *)
Definition canonical (d : str) : Prop :=
  ∃ k comps, (k = 1 ∨ k = 2)%nat ∧ Forall ordinary comps
    ∧ d = replicate k SLASH ++ join_with SLASH comps.

(** The test [cd] makes for a path other than the root. *)
Definition dir_exists (ms : list TarInfo) (d : str) : bool :=
  existsb (λ member,
             startswith (normalize_member_name (name member)) (cd_prefix d))
          ms.

(** The directories a session over the archive [ms] can be in: the
    root, and wherever [cd] leads from one of them. *)
Inductive reachable (ms : list TarInfo) : str → Prop :=
  | reach_root : reachable ms [SLASH]
  | reach_cd e path :
      members e = ms → reachable ms (current_dir e) →
      reachable ms (current_dir (cd e path)).

(** [c] names a directory directly below the current one: an ordinary
    component such that some stripped member name goes on below it. *)
Definition child_dir (e : Emulator) (c : str) : Prop :=
  ordinary c
  ∧ ∃ m, m ∈ members e
      ∧ startswith (normalize_member_name (name m))
                   (ls_prefix (current_dir e) ++ c ++ [SLASH]) = true.

(** ** Sessions *)

(** The emulator when the startup script begins. *)
Definition start (user : str) (archive : list TarInfo) : Emulator :=
  {| username := user; current_dir := [SLASH]; members := archive;
     log := [HEADER]; stdout := [] |}.

(** What the archive holds apart from the owners. *)
Definition files (ms : list TarInfo) : list (str * byte * str * bytes) :=
  (λ m, (name m, type m, linkname m, data m)) <$> ms.

(** A directory the emulator may be in: an absolute normal path that is
    the root or passes the test of [cd]. *)
Definition good_dir (ms : list TarInfo) (d : str) : Prop :=
  canonical d ∧ (d = [SLASH] ∨ dir_exists ms d = true).

(** The emulator without the text it has printed. *)
Definition core (e : Emulator) : str * str * list TarInfo * list (list str) :=
  (username e, current_dir e, members e, log e).

(** How a run ends: the exit status, if the process has ended, and the
    emulator without the text printed. *)
Definition result (o : outcome)
  : option nat * (str * str * list TarInfo * list (list str)) :=
  (match o with Running _ => None | Exited status _ => Some status end,
   core (state_of o)).

(** Lines given to [execute_command] one after the other, without any
    prompt, until one exits or the lines end. *)
Fixpoint run_lines (e : Emulator) (lines : list str) : outcome :=
  match lines with
  | [] => exit_shell e
  | l :: rest =>
      match execute_command e l with
      | Running e' => run_lines e' rest
      | Exited status e' => Exited status e'
      end
  end.

(** ** Bytes of a file *)

Global Instance byte_eq_dec : EqDecision byte := Byte.byte_eq_dec.

(** The number of newline bytes of a file. *)
Definition newline_bytes (f : bytes) : nat :=
  length (filter (λ b, b = x0a) f).

(** The bytes [pend] read so far begin the UTF-8 form of every character
    the decoder can still produce from its state: [k] more continuation
    bytes, the first in [lo..hi], complete the form. *)
Fixpoint completes (k : nat) (cp lo hi : N) (pend : bytes) : Prop :=
  match k with
  | O => False
  | S k' =>
      ∀ b : byte, lo ≤ Byte.to_N b ≤ hi →
        match k' with
        | O => encode_char (cp * 64 + (Byte.to_N b - 0x80))
               = Some (pend ++ [b])
        | S _ => completes k' (cp * 64 + (Byte.to_N b - 0x80)) 0x80 0xBF
                           (pend ++ [b])
        end
  end.

Definition pending (st : dstate) (pend : bytes) : Prop :=
  match st with
  | Start => pend = []
  | Need k cp lo hi => completes k cp lo hi pend
  end.

(** ** Looking a file up *)

(** [member] is the member [tar.getmember] finds for the name [n]: the
    last one stored under it. *)
Definition last_stored (ms : list TarInfo) (n : str) (member : member_ref)
  : Prop :=
  ms !! member.1 = Some member.2 ∧ name member.2 = n
  ∧ ∀ j m', ms !! j = Some m' → (member.1 < j)%nat → name m' ≠ n.

(** The types of the members without data: [extractfile] has no file
    object for them. *)
Definition NODATA_TYPES : list byte :=
  [DIRTYPE; FIFOTYPE; CHRTYPE; BLKTYPE].

(** An archive with a directory member and a file stored twice. *)
Definition dir_fs : list TarInfo :=
  [ {| name := lit "docs"; uname := []; type := DIRTYPE; linkname := [];
       data := [] |};
    test_file "docs/a.txt" (utf8 "old" ++ [x0a]);
    test_file "docs/a.txt" (utf8 "new" ++ [x0a]) ].

Definition dir_emulator : Emulator :=
  {| username := lit "testuser"; current_dir := [SLASH];
     members := dir_fs; log := [HEADER]; stdout := [] |}.

(** ** Owners *)

(** Two members that differ at most in their owner. *)
Definition same_file (m m' : TarInfo) : Prop :=
  name m = name m' ∧ type m = type m' ∧ linkname m = linkname m'
  ∧ data m = data m'.

(** The same place in two member lists, and members there that differ
    at most in their owner. *)
Definition same_member (member member' : member_ref) : Prop :=
  member.1 = member'.1 ∧ same_file member.2 member'.2.

(** Two emulators that differ at most in the owners of their members. *)
Definition same_but_owners (e1 e2 : Emulator) : Prop :=
  username e1 = username e2 ∧ current_dir e1 = current_dir e2
  ∧ Forall2 same_file (members e1) (members e2)
  ∧ log e1 = log e2 ∧ stdout e1 = stdout e2.

(** Two outcomes with the same exit status, if any, and emulators that
    differ at most in the owners. *)
Definition same_outcome (o1 o2 : outcome) : Prop :=
  match o1, o2 with
  | Running e1, Running e2 => same_but_owners e1 e2
  | Exited s1 e1, Exited s2 e2 => s1 = s2 ∧ same_but_owners e1 e2
  | _, _ => False
  end.

(** ** Decoding with replacement *)

(** The bytes [p] begin the UTF-8 form of some character. *)
Definition begins_char (p : bytes) : Prop :=
  ∃ c form, encode_char c = Some form ∧ p `prefix_of` form.

(** The bytes [p], followed in the input by [rest], are one ill-formed
    sequence: the input does not start with the form of any character,
    and [p] is as much of it as begins the form of some character, or
    its first byte alone when not even that byte does. *)
Definition ill_formed (p rest : bytes) : Prop :=
  (∀ c form, encode_char c = Some form → ¬ form `prefix_of` p ++ rest)
  ∧ p ≠ []
  ∧ (length p = 1%nat ∨ begins_char p)
  ∧ (∀ b rest', rest = b :: rest' → ¬ begins_char (p ++ [b])).

(** [s] is the bytes [bs] read as UTF-8 with each ill-formed sequence
    replaced by U+FFFD. *)
Inductive replaced : bytes → str → Prop :=
  | replaced_end : replaced [] []
  | replaced_char c form rest s :
      encode_char c = Some form → replaced rest s →
      replaced (form ++ rest) (c :: s)
  | replaced_ill_formed p rest s :
      ill_formed p rest → replaced rest s →
      replaced (p ++ rest) (REPLACEMENT :: s).

(** The decoder has read [pend] since the last character boundary. *)
Definition reads (pend : bytes) (st : dstate) : Prop :=
  ∀ rest, utf8_scan Start (pend ++ rest) = utf8_scan st rest.

(** What the decoder has on hand in the state [st]: nothing at a
    boundary; inside a sequence the bytes [pend] read since the
    boundary, which every run of continuation bytes the state accepts
    completes to the form of a character. *)
Definition inside (st : dstate) (pend : bytes) : Prop :=
  match st with
  | Start => pend = []
  | Need _ _ _ _ => pend ≠ [] ∧ st_ok st ∧ pending st pend ∧ reads pend st
  end.

(** The decoder's output as text, ill-formed sequences replaced. *)
Definition text_of (out : list (option char)) : str :=
  default REPLACEMENT <$> out.

(** ** Words *)

(** White space only; a word: not empty and without white space. *)
Definition blank (s : str) : Prop := Forall (λ c, isspace c = true) s.
Definition solid (w : str) : Prop :=
  w ≠ [] ∧ Forall (λ c, isspace c = false) w.

(** Nothing follows, or white space does. *)
Definition word_ends (rest : str) : Prop :=
  rest = [] ∨ ∃ c rest', rest = c :: rest' ∧ isspace c = true.

(** [words] are the white-space-delimited tokens of a text: the text is
    the words in their order, each after a gap of white space that is
    empty at most before the first word, and white space after the
    last. *)
Inductive delimited : str → list str → Prop :=
  | delimited_blank gap : blank gap → delimited gap []
  | delimited_word gap w rest words :
      blank gap → solid w → word_ends rest → delimited rest words →
      delimited (gap ++ w ++ rest) (w :: words).

(** * Properties *)

(** ** Strings *)

Lemma startswith_prefix (s p : str) :
  startswith s p = true ↔ p `prefix_of` s.
Proof.
  revert s. induction p as [|c p IH]; intros s.
  - destruct s; simpl; split; auto using prefix_nil.
  - destruct s as [|d s]; simpl.
    + split; [done | intros [k Hk]; discriminate].
    + rewrite andb_true_iff, N.eqb_eq, IH. split.
      * intros [-> Hp]. by apply prefix_cons.
      * intros [k Hk]. injection Hk as -> ->. split; [done | by exists k].
Qed.

Lemma startswith_app (p k : str) : startswith (p ++ k) p = true.
Proof. apply startswith_prefix. by exists k. Qed.

(** ** Printing *)

Lemma print_end_eq e s t : print_end e s t = set_stdout e (stdout e ++ s ++ t).
Proof. done. Qed.

Lemma set_stdout_twice e a b : set_stdout (set_stdout e a) b = set_stdout e b.
Proof. done. Qed.

Lemma set_stdout_id e : set_stdout e (stdout e) = e.
Proof. by destruct e. Qed.

Lemma foldl_print_end e (items : list str) (t : str) :
  foldl (λ e item, print_end e item t) e items
  = set_stdout e (stdout e ++ concat ((λ item, item ++ t) <$> items)).
Proof.
  revert e. induction items as [|x items IH]; intros e; simpl.
  - by rewrite app_nil_r, set_stdout_id.
  - rewrite IH. rewrite print_end_eq, set_stdout_twice. simpl.
    by rewrite <-!(assoc_L (++)).
Qed.

Lemma print_all_eq e (lines : list str) :
  print_all e lines
  = set_stdout e (stdout e ++ concat ((λ l, l ++ [LF]) <$> lines)).
Proof. apply foldl_print_end. Qed.

(** ** The action log *)

Lemma head_loop_frame n filename f e :
  ∃ out, head_loop n filename f e = set_stdout e out.
Proof.
  revert f e. induction n as [|n IH]; intros f e; simpl.
  - exists (stdout e). by rewrite set_stdout_id.
  - destruct (readline f) as [line f']. destruct line as [|b line].
    + exists (stdout e). by rewrite set_stdout_id.
    + destruct (decode (b :: line)) as [decoded|].
      * destruct (IH f' (print e (rstrip decoded))) as [out ->].
        by exists out.
      * by eexists.
Qed.

Lemma ls_same_session e : same_session e (ls e).
Proof. unfold ls. by rewrite foldl_print_end. Qed.

Lemma cd_same_session e path : same_session e (cd e path).
Proof. unfold cd. by repeat case_match. Qed.

Lemma head_same_session e filename : same_session e (head e filename).
Proof.
  unfold head. repeat case_match; try done.
  match goal with
  | |- context [head_loop 10 filename ?f e] =>
      by destruct (head_loop_frame 10 filename f e) as [out ->]
  end.
Qed.

Lemma chown_same_session e owner filename :
  same_session e (chown e owner filename).
Proof. unfold chown. by repeat case_match. Qed.

Lemma wc_same_session e filename : same_session e (wc e filename).
Proof. unfold wc. by repeat case_match. Qed.

Lemma dispatch_same_session e args :
  same_session e (state_of (dispatch e args)).
Proof.
  unfold dispatch. destruct args as [|command operands]; [done|].
  repeat case_bool_decide; repeat case_match; simpl;
    auto using ls_same_session, cd_same_session, head_same_session,
      chown_same_session, wc_same_session; done.
Qed.

Lemma dispatch_exit e args :
  (hd_error args = Some (lit "exit") → dispatch e args = Exited 0 e)
  ∧ (hd_error args ≠ Some (lit "exit") → ∃ e', dispatch e args = Running e').
Proof.
  unfold dispatch. destruct args as [|command operands]; simpl.
  - split; [done | by eexists].
  - split.
    + intros [= ->]. by repeat case_bool_decide.
    + intros Hne. repeat case_bool_decide; repeat case_match;
        try (by eexists). by subst.
Qed.

Lemma execute_command_log e line :
  let o := execute_command e line in
  username (state_of o) = username e
  ∧ log (state_of o) = log e ++ [[username e; line]]
  ∧ (if is_exit line then ∃ e', o = Exited 0 e' else ∃ e', o = Running e').
Proof.
  unfold execute_command. simpl.
  set (e1 := writerow e [username e; line]).
  destruct (dispatch_same_session e1 (split (strip line))) as [Hu Hl].
  destruct (dispatch_exit e1 (split (strip line))) as [Hex Hrun].
  split_and!; [done | done |].
  unfold is_exit. case_bool_decide; [rewrite Hex by done; by eexists | auto].
Qed.

Lemma shell_loop_log e inputs :
  log (state_of (shell_loop e inputs))
  = log e ++ ((λ l, [username e; l]) <$> until_exit inputs).
Proof.
  revert e. induction inputs as [|l inputs IH]; intros e; simpl.
  - by rewrite app_nil_r.
  - set (e0 := print_end e (prompt e) []).
    destruct (execute_command_log e0 l) as (Hu & Hl & Hex).
    destruct (is_exit l).
    + destruct Hex as [e' Heq]. rewrite Heq in *. simpl in *. by rewrite Hl.
    + destruct Hex as [e' Heq]. rewrite Heq in *. simpl in *.
      rewrite IH, Hl, Hu. simpl. by rewrite <-(assoc_L (++)).
Qed.

Lemma until_exit_app_exit (l1 l2 : list str) :
  Exists (λ l, is_exit l = true) l1 → until_exit (l1 ++ l2) = until_exit l1.
Proof.
  induction l1 as [|l l1 IH]; intros Hex; [by inversion Hex|]. simpl.
  destruct (is_exit l) eqn:Hl; [done|].
  inversion Hex; subst; [congruence|]. by rewrite IH.
Qed.

Lemma until_exit_app_no_exit (l1 l2 : list str) :
  Forall (λ l, is_exit l = false) l1 →
  until_exit (l1 ++ l2) = l1 ++ until_exit l2.
Proof.
  induction 1 as [|l l1 Hl _ IH]; [done|]. simpl. by rewrite Hl, IH.
Qed.

Lemma until_exit_no_exit (l1 : list str) :
  Forall (λ l, is_exit l = false) l1 → until_exit l1 = l1.
Proof.
  intros H. rewrite <-(app_nil_r l1) at 1.
  rewrite until_exit_app_no_exit by done. by rewrite app_nil_r.
Qed.

Lemma run_script_lines_log e script :
  let o := run_script_lines e script in
  username (state_of o) = username e
  ∧ log (state_of o)
    = log e ++ ((λ l, [username e; l]) <$> until_exit (script_commands script))
  ∧ (if bool_decide (Exists (λ l, is_exit l = true) (script_commands script))
     then ∃ e', o = Exited 0 e' else ∃ e', o = Running e').
Proof.
  revert e. unfold script_commands.
  induction script as [|l script IH]; intros e; simpl.
  - rewrite app_nil_r. split_and!; [done..|].
    by eexists.
  - destruct (decide (strip l = [])) as [Hblank|Hblank].
    + rewrite bool_decide_eq_true_2 by done.
      rewrite filter_cons_False by (intros Hne; by apply Hne). apply IH.
    + rewrite bool_decide_eq_false_2 by done.
      rewrite filter_cons_True by done.
      destruct (execute_command_log e (strip l)) as (Hu & Hl & Hex).
      destruct (is_exit (strip l)) eqn:Hexit.
      * destruct Hex as [e' Heq]. rewrite Heq in *. cbn [state_of] in *.
        cbn [until_exit]. rewrite Hexit.
        split_and!; [done..|].
        clear IH. case_bool_decide as H; [by eexists | exfalso; apply H; by left].
      * destruct Hex as [e' Heq]. rewrite Heq in *. cbn [state_of] in *.
        cbn [until_exit]. rewrite Hexit.
        destruct (IH e') as (Hu' & Hl' & Hex'). clear IH.
        split_and!; [congruence | |].
        -- rewrite Hl', Hl, Hu. rewrite fmap_cons. by rewrite <-(assoc_L (++)).
        -- case_bool_decide as H1; case_bool_decide as H2; try done.
           ++ exfalso. apply H2. by right.
           ++ apply Exists_cons in H2 as [?|?]; [congruence | done].
Qed.

(** C8 (as amended): the log is the header row followed by one row,
    user name and text, for each line given to [execute_command]: the
    non-blank lines of the startup script, stripped, then every line
    typed at the prompt as typed, blank ones included, up to the first
    [exit].  A missing script leaves the header alone. *)
Theorem log_one_row_per_dispatched_line user archive script_path script inputs :
  log (state_of (main user archive script_path script inputs))
  = HEADER :: ((λ l, [user; l]) <$>
               match script with
               | ScriptLines lines => dispatched lines inputs
               | ScriptNotFound | ScriptError => []
               end).
Proof.
  destruct script as [script| |]; [|done..].
  unfold main, init, run_startup_script, dispatched.
  set (e0 := writerow _ _).
  destruct (run_script_lines_log e0 script) as (Hu & Hl & Hex).
  case_bool_decide as Hexit.
  - destruct Hex as [e' Heq]. rewrite Heq in *. simpl in *.
    by rewrite Hl, until_exit_app_exit.
  - destruct Hex as [e' Heq]. rewrite Heq in *. simpl in *.
    rewrite shell_loop_log, Hl, Hu. simpl.
    assert (Forall (λ l, is_exit l = false) (script_commands script)) as Hno.
    { apply Forall_forall. intros l Hin. destruct (is_exit l) eqn:E; [|done].
      exfalso. apply Hexit. apply Exists_exists. eauto. }
    rewrite (until_exit_app_no_exit _ inputs Hno).
    rewrite (until_exit_no_exit _ Hno). by rewrite fmap_app.
Qed.

(** C8 (counterexample): a blank line typed at the prompt is given to
    [execute_command] and gets its row in the log. *)
Lemma blank_input_line_is_recorded :
  strip (lit "  ") = []
  ∧ log (state_of (main (lit "u") [] (lit "s") (ScriptLines []) [lit "  "]))
    = [HEADER; [lit "u"; lit "  "]].
Proof. by vm_compute. Qed.


(** ** Surplus operands *)

Lemma dispatch_surplus e command (operands extra : list str) :
  length operands = arity command →
  dispatch e (command :: operands ++ extra) = dispatch e (command :: operands).
Proof.
  unfold arity, dispatch. intros Hlen.
  repeat case_bool_decide; subst; simpl in *;
    repeat (destruct operands as [|? operands]; simpl in *; try done).
Qed.

(** No handler reads the log. *)
Lemma head_loop_set_log n filename f e rows :
  head_loop n filename f (set_log e rows)
  = set_log (head_loop n filename f e) rows.
Proof.
  revert f e. induction n as [|n IH]; intros f e; [done|]. simpl.
  destruct (readline f) as [line f']. destruct line as [|b line]; [done|].
  destruct (decode (b :: line)) as [decoded|]; [|done].
  by rewrite <-IH.
Qed.

Lemma ls_set_log e rows : ls (set_log e rows) = set_log (ls e) rows.
Proof. unfold ls. by rewrite !foldl_print_end. Qed.

Lemma cd_set_log e rows path :
  cd (set_log e rows) path = set_log (cd e path) rows.
Proof. unfold cd, resolve. simpl. by repeat case_match. Qed.

Lemma head_set_log e rows filename :
  head (set_log e rows) filename = set_log (head e filename) rows.
Proof.
  unfold head, lookup_name, resolve. cbn [members current_dir set_log].
  repeat case_match; try done; apply head_loop_set_log.
Qed.

Lemma chown_set_log e rows owner filename :
  chown (set_log e rows) owner filename = set_log (chown e owner filename) rows.
Proof. unfold chown, lookup_name, resolve. simpl. by repeat case_match. Qed.

Lemma wc_set_log e rows filename :
  wc (set_log e rows) filename = set_log (wc e filename) rows.
Proof. unfold wc, lookup_name, resolve. simpl. by repeat case_match. Qed.

Lemma dispatch_set_log e rows args :
  dispatch (set_log e rows) args
  = on_state (λ e', set_log e' rows) (dispatch e args).
Proof.
  unfold dispatch. destruct args as [|command operands]; [done|].
  repeat case_bool_decide; repeat case_match; simpl;
    by rewrite ?ls_set_log, ?cd_set_log, ?head_set_log, ?chown_set_log,
         ?wc_set_log.
Qed.

Lemma effect_on_state_set_log o rows :
  effect (on_state (λ e', set_log e' rows) o) = effect o.
Proof. by destruct o. Qed.

Lemma writerow_set_log e row : writerow e row = set_log e (log e ++ [row]).
Proof. done. Qed.

(** C10: a command line with more operands than the command takes does
    what the line with just the command and its operands does: apart
    from the row logged, which holds each line as typed, the two leave
    the same directory, members and output, and nothing is printed about
    the surplus. *)
Theorem surplus_operands_ignored e line line' command
    (operands extra : list str) :
  split (strip line) = command :: operands ++ extra →
  split (strip line') = command :: operands →
  length operands = arity command →
  effect (execute_command e line) = effect (execute_command e line')
  ∧ log (state_of (execute_command e line)) = log e ++ [[username e; line]].
Proof.
  intros Hsplit Hsplit' Hlen. split.
  - unfold execute_command. rewrite Hsplit, Hsplit', !writerow_set_log.
    rewrite !dispatch_set_log, !effect_on_state_set_log.
    by rewrite dispatch_surplus.
  - by destruct (execute_command_log e line) as (_ & ? & _).
Qed.

Lemma surplus_operands_ignored_witness :
  effect (execute_command test_emulator (lit "cd dir1 b"))
  = effect (execute_command test_emulator (lit "cd dir1"))
  ∧ log (state_of (execute_command test_emulator (lit "cd dir1 b")))
    = log test_emulator ++ [[username test_emulator; lit "cd dir1 b"]].
Proof.
  apply (surplus_operands_ignored test_emulator (lit "cd dir1 b")
           (lit "cd dir1") (lit "cd") [lit "dir1"] [lit "b"]); reflexivity.
Defined.

(** ** Order of the names *)

Lemma str_leb_refl a : str_leb a a = true.
Proof.
  induction a as [|c a IH]; [done|]. simpl.
  by rewrite N.eqb_refl, IH, orb_true_r.
Qed.

Global Instance str_le_total : Total str_le.
Proof.
  intros a. unfold str_le. induction a as [|c a IH]; intros [|d b]; simpl; auto.
  destruct (N.ltb_spec c d), (N.ltb_spec d c); simpl; auto; try lia.
  assert (c = d) as -> by lia. rewrite N.eqb_refl. simpl. apply IH.
Qed.

Global Instance str_le_trans : Transitive str_le.
Proof.
  intros a. unfold str_le.
  induction a as [|c a IH]; intros [|d b] [|f g]; simpl; try done.
  rewrite !orb_true_iff, !andb_true_iff, !N.ltb_lt, !N.eqb_eq.
  intros [?|[-> ?]] [?|[-> ?]]; try (left; lia); eauto.
Qed.

Global Instance str_le_antisymm : AntiSymm (=) str_le.
Proof.
  intros a. unfold str_le.
  induction a as [|c a IH]; intros [|d b]; simpl; try done.
  rewrite !orb_true_iff, !andb_true_iff, !N.ltb_lt, !N.eqb_eq.
  intros [?|[-> ?]] [?|[? ?]]; try lia. f_equal. by apply IH.
Qed.

Lemma StronglySorted_strict (l : list str) :
  StronglySorted str_le l → NoDup l → StronglySorted str_lt l.
Proof.
  induction 1 as [|x l Hl IH Hx]; intros Hnd; [constructor|].
  apply NoDup_cons in Hnd as [Hx' Hnd]. constructor; [by apply IH|].
  apply Forall_forall. intros y Hy. split.
  - by eapply Forall_forall in Hx.
  - by intros ->.
Qed.

Lemma sorted_spec (s : gset str) :
  StronglySorted str_lt (sorted s) ∧ ∀ x, x ∈ sorted s ↔ x ∈ s.
Proof.
  unfold sorted. split.
  - apply StronglySorted_strict; [apply StronglySorted_merge_sort; apply _|].
    rewrite merge_sort_Permutation. apply NoDup_elements.
  - intros x. by rewrite merge_sort_Permutation, elem_of_elements.
Qed.

(** ** First segments *)

Lemma split_on_hd (c : char) (s : str) :
  ∃ x fields, split_on c s = x :: fields ∧ (c ∉ x)
    ∧ (s = x ∧ fields = [] ∨ ∃ tail, s = x ++ c :: tail).
Proof.
  induction s as [|d s (x & fields & Heq & Hx & Hs)]; simpl.
  - exists [], []. split_and!; [done | by intros ?%elem_of_nil | by left].
  - destruct (N.eqb_spec d c) as [->|Hne].
    + exists [], (split_on c s).
      split_and!; [done | by intros ?%elem_of_nil | right; by exists s].
    + rewrite Heq. exists (d :: x), fields. split_and!; [done | |].
      * intros [?|?]%elem_of_cons; [by subst | done].
      * destruct Hs as [[-> ->]|[tail ->]]; [by left | right; by exists tail].
Qed.

Lemma first_segment_unique rest x y :
  first_segment rest x → first_segment rest y → x = y.
Proof.
  revert rest y. induction x as [|c x IH]; intros rest y [Hx Hr] [Hy Hr'].
  - destruct y as [|d y]; [done|]. exfalso.
    destruct Hr as [->|[t ->]], Hr' as [Hr'|[t' Hr']]; simplify_eq/=;
      apply Hy; by left.
  - apply not_elem_of_cons in Hx as [Hc Hx].
    assert (∃ rest', rest = c :: rest' ∧ first_segment rest' x)
      as (rest' & -> & Hfs).
    { destruct Hr as [->|[t ->]]; eexists; (split; [done|]).
      - split; [done | by left].
      - split; [done | right; by exists t]. }
    destruct y as [|d y].
    { destruct Hr' as [?|[t' [= -> _]]]; done. }
    apply not_elem_of_cons in Hy as [Hd Hy].
    assert (d = c ∧ first_segment rest' y) as [-> Hfs'].
    { destruct Hr' as [[= -> ->]|[t' [= -> ->]]]; (split; [done|]).
      - split; [done | by left].
      - split; [done | right; by exists t']. }
    f_equal. by eapply IH.
Qed.

Lemma split_on_first_segment (s x : str) :
  hd_error (split_on SLASH s) = Some x ↔ first_segment s x.
Proof.
  destruct (split_on_hd SLASH s) as (y & fields & Heq & Hy & Hs).
  rewrite Heq. simpl.
  assert (first_segment s y) as Hfs.
  { split; [done|]. destruct Hs as [[-> _]|[t ->]]; [by left | right; by exists t]. }
  split.
  - by intros [= <-].
  - intros Hx. f_equal. by eapply first_segment_unique.
Qed.

(** ** What [ls] collects *)

Lemma ls_add_spec prefix contents m x :
  x ∈ ls_add prefix contents m
  ↔ x ∈ contents ∨ child_of prefix [m] x.
Proof.
  unfold ls_add, child_of.
  destruct (startswith _ prefix) eqn:Hsw.
  - apply startswith_prefix in Hsw as [rest Hrest]. rewrite Hrest.
    rewrite drop_app_length.
    destruct (split_on_hd SLASH rest) as (y & fields & Heq & Hy & Hs).
    assert (first_segment rest y) as Hfs.
    { split; [done|]. destruct Hs as [[-> _]|[t ->]];
        [by left | right; by exists t]. }
    rewrite Heq. simpl. case_bool_decide as Hempty.
    + split; [by left|]. intros [?|[Hx (m' & rest' & Hin & Hn & Hfs')]]; [done|].
      apply list_elem_of_singleton in Hin as ->.
      rewrite Hrest in Hn. apply (inj (app prefix)) in Hn; subst rest'.
      destruct Hx. subst y. by eapply first_segment_unique.
    + rewrite elem_of_union, elem_of_singleton. split.
      * intros [?| ->]; [by left | right]. split; [done|].
        exists m, rest. split_and!; [apply list_elem_of_singleton| |]; done.
      * intros [?|[Hx (m' & rest' & Hin & Hn & Hfs')]]; [by left | right].
        apply list_elem_of_singleton in Hin as ->.
        rewrite Hrest in Hn. apply (inj (app prefix)) in Hn; subst rest'.
        by eapply first_segment_unique.
  - split; [by left|]. intros [?|[Hx (m' & rest' & Hin & Hn & Hfs')]]; [done|].
    apply list_elem_of_singleton in Hin as ->.
    assert (startswith (normalize_member_name (name m)) prefix = true)
      as Hsw' by (apply startswith_prefix; by exists rest').
    congruence.
Qed.

Lemma ls_fold_spec prefix ms contents x :
  x ∈ foldl (ls_add prefix) contents ms
  ↔ x ∈ contents ∨ child_of prefix ms x.
Proof.
  revert contents. induction ms as [|m ms IH]; intros contents; simpl.
  - split; [by left|]. intros [?|[_ (m & ? & Hin & _)]]; [done|].
    by apply elem_of_nil in Hin.
  - rewrite IH, ls_add_spec. unfold child_of. split.
    + intros [[?|[Hx (m' & rest & Hin & ?)]]|[Hx (m' & rest & Hin & ?)]];
        [by left | right..]; (split; [done|]); exists m', rest.
      * apply list_elem_of_singleton in Hin as ->. split; [by left | done].
      * split; [by right | done].
    + intros [?|[Hx (m' & rest & Hin & ?)]]; [by left; left|].
      apply elem_of_cons in Hin as [->|Hin].
      * left; right. split; [done|]. exists m, rest.
        split; [by apply list_elem_of_singleton | done].
      * right. split; [done|]. by exists m', rest.
Qed.

(** C5 (as amended): [ls] prints, on one line, each name directly below
    the current directory followed by two spaces, the names distinct and
    in increasing order, then a newline; with no name to print the line
    is a bare newline. *)
Theorem ls_prints_sorted_children e :
  ls e = set_stdout e (stdout e
           ++ concat ((λ n, n ++ lit "  ") <$> ls_names e) ++ [LF])
  ∧ StronglySorted str_lt (ls_names e)
  ∧ (∀ x, x ∈ ls_names e
          ↔ child_of (ls_prefix (current_dir e)) (members e) x)
  ∧ (ls_names e = [] → ls e = set_stdout e (stdout e ++ [LF])).
Proof.
  assert (ls e = set_stdout e (stdout e
           ++ concat ((λ n, n ++ lit "  ") <$> ls_names e) ++ [LF])) as Hls.
  { unfold ls, ls_names. rewrite foldl_print_end. unfold print.
    rewrite print_end_eq, set_stdout_twice. simpl.
    by rewrite <-(assoc_L (++)). }
  destruct (sorted_spec (ls_contents e)) as [Hsorted Hin].
  split_and!; [done | done | |].
  - intros x. unfold ls_names. rewrite Hin. unfold ls_contents.
    rewrite ls_fold_spec. split; [|by right].
    intros [?|?]; [|done]. by apply not_elem_of_empty in H.
  - intros Hnil. by rewrite Hls, Hnil.
Qed.

(** C5 (counterexample): at the root of the test archive the line [ls]
    prints ends in two spaces before the newline, so it is not the line
    with the names merely separated by two spaces. *)
Lemma ls_line_ends_in_two_spaces :
  stdout (ls test_emulator)
  = lit "binaryfile  dir1  dir2  empty.txt  empty_dir  file1.txt  file2.txt  "
    ++ [LF]
  ∧ stdout (ls test_emulator) ≠ two_space_separated (ls_names test_emulator).
Proof. split; [by vm_compute | vm_compute; discriminate]. Qed.

(** ** Ownership *)

Lemma lookup_name_set_members e ms filename :
  lookup_name (set_members e ms) filename = lookup_name e filename.
Proof. done. Qed.

Lemma lookup_name_print e s filename :
  lookup_name (print e s) filename = lookup_name e filename.
Proof. done. Qed.

Lemma list_find_name_insert (ms : list TarInfo) n i m owner :
  list_find (λ m, name m = n) ms = Some (i, m) →
  list_find (λ m, name m = n) (<[i := set_uname m owner]> ms)
  = Some (i, set_uname m owner).
Proof.
  intros (Hi & Hn & Hfirst)%list_find_Some. apply list_find_Some.
  assert (i < length ms)%nat by (by eapply lookup_lt_Some).
  split_and!.
  - by apply list_lookup_insert_eq.
  - done.
  - intros j y Hj Hlt. rewrite list_lookup_insert_ne in Hj by lia. eauto.
Qed.

(** C6: when some member is stored under the name looked up, [chown]
    sets the owner of the first such member, leaves every other member
    as it is and confirms; a second [chown] of the same file replaces
    the owner again.  When no member has that name, [chown] only reports
    that it cannot access the file. *)
Theorem chown_last_write_wins e owner filename :
  ((∃ m, m ∈ members e ∧ name m = lookup_name e filename) →
   ∃ i m, members e !! i = Some m ∧ name m = lookup_name e filename
     ∧ chown e owner filename
       = print (set_members e (<[i := set_uname m owner]> (members e)))
               (lit "Changed owner of '" ++ filename ++ lit "' to '" ++ owner
                ++ lit "'")
     ∧ uname <$> members (chown e owner filename) !! i = Some owner
     ∧ (∀ j, j ≠ i →
          members (chown e owner filename) !! j = members e !! j)
     ∧ (∀ owner',
          members (chown (chown e owner filename) owner' filename)
          = <[i := set_uname m owner']> (members e)))
  ∧ ((∀ m, m ∈ members e → name m ≠ lookup_name e filename) →
     chown e owner filename
     = print e (lit "chown: cannot access '" ++ filename
                ++ lit "': No such file or directory")).
Proof.
  split.
  - intros (m0 & Hin & Hname).
    destruct (list_find (λ m, name m = lookup_name e filename) (members e))
      as [[i m]|] eqn:Hfind.
    2: { apply list_find_None in Hfind.
         by eapply Forall_forall in Hfind. }
    pose proof Hfind as (Hi & Hn & _)%list_find_Some.
    assert (i < length (members e))%nat by (by eapply lookup_lt_Some).
    assert (chown e owner filename
            = print (set_members e (<[i := set_uname m owner]> (members e)))
                (lit "Changed owner of '" ++ filename ++ lit "' to '" ++ owner
                 ++ lit "'")) as Hchown.
    { unfold chown. by rewrite Hfind. }
    exists i, m. split_and!; [done | done | done | | |].
    + rewrite Hchown. simpl. by rewrite list_lookup_insert_eq.
    + intros j Hj. rewrite Hchown. simpl. by rewrite list_lookup_insert_ne.
    + intros owner'. rewrite Hchown. unfold chown at 1.
      rewrite lookup_name_print, lookup_name_set_members. simpl.
      rewrite (list_find_name_insert _ _ _ _ owner Hfind). simpl.
      by rewrite list_insert_insert_eq.
  - intros Hnone. unfold chown.
    destruct (list_find _ _) as [[i m]|] eqn:Hfind; [|done].
    apply list_find_Some in Hfind as (Hi & Hn & _).
    exfalso. eapply Hnone; [|done]. by eapply list_elem_of_lookup_2.
Qed.

Example chown_test_existing_file :
  uname <$> members (chown test_emulator (lit "newowner") (lit "file1.txt")) !! 0%nat
  = Some (lit "newowner")
  ∧ stdout (chown test_emulator (lit "newowner") (lit "nonexistent.txt"))
    = lit "chown: cannot access 'nonexistent.txt': No such file or directory"
      ++ [LF].
Proof. by vm_compute. Qed.


(** ** The decoder *)

Lemma out_ok_None b : out_ok b None.
Proof. by intros c. Qed.

Lemma out_ok_ascii b : b < 0x80 → out_ok b (Some b).
Proof. intros Hb c [= <-]. split; [left; lia | done]. Qed.

Lemma start_byte_ok b out st :
  start_byte b = (out, st) → st_ok st ∧ Forall (out_ok b) out.
Proof.
  unfold start_byte.
  repeat (match goal with
          | |- context [N.ltb ?x ?y] => destruct (N.ltb_spec x y)
          | |- context [N.eqb ?x ?y] => destruct (N.eqb_spec x y)
          end);
    intros [= <- <-];
    (split; [| auto using out_ok_None, out_ok_ascii]);
    first [ done | simpl; lia ].
Qed.

Lemma decode_byte_ok st b out st' :
  st_ok st → decode_byte st b = (out, st') →
  st_ok st' ∧ Forall (out_ok b) out.
Proof.
  destruct st as [|k cp lo hi]; simpl; [intros _; apply start_byte_ok|].
  intros (Hk & Hlo & Hlh & Hhi & Hcp).
  destruct (N.leb_spec lo b), (N.leb_spec b hi); simpl.
  2-4: destruct (start_byte b) as [out0 st0] eqn:Hsb;
       apply start_byte_ok in Hsb as [? ?]; intros [= <- <-];
       auto using out_ok_None.
  destruct k as [|[|[|[|k]]]]; try lia; simpl in Hcp; intros [= <- <-].
  - split; [done|]. constructor; [|constructor]. intros c [= <-].
    unfold scalar. lia.
  - split; [|constructor]. simpl. lia.
  - split; [|constructor]. simpl. lia.
Qed.

Lemma utf8_scan_ok st bs c :
  st_ok st → Some c ∈ utf8_scan st bs →
  scalar c ∧ (c < 0x80 → ∃ b, b ∈ bs ∧ Byte.to_N b = c).
Proof.
  revert st. induction bs as [|b bs IH]; intros st Hst; simpl.
  - destruct st; [by intros ?%elem_of_nil|].
    intros Hin%list_elem_of_singleton. done.
  - destruct (decode_byte st (Byte.to_N b)) as [out st'] eqn:Hstep.
    apply decode_byte_ok in Hstep as [Hst' Hout]; [|done].
    intros [Hin|Hin]%elem_of_app.
    + eapply Forall_forall in Hout; [|done].
      destruct (Hout c eq_refl) as [Hs Hb]. split; [done|].
      intros Hc. exists b. split; [by left | by rewrite Hb].
    + destruct (IH st' Hst' Hin) as [Hs Hb]. split; [done|].
      intros Hc. destruct (Hb Hc) as (b' & ? & ?). exists b'.
      split; [by right | done].
Qed.

Lemma decode_replace_scalar bs : Forall scalar (decode_replace bs).
Proof.
  unfold decode_replace. apply Forall_fmap, Forall_forall.
  intros [c|] Hin; simpl.
  - by apply (utf8_scan_ok Start bs c).
  - right. unfold REPLACEMENT. lia.
Qed.

(** ** The encoder *)

Lemma encode_char_scalar c : scalar c → is_Some (encode_char c).
Proof.
  unfold scalar, encode_char. intros Hc.
  repeat (match goal with
          | |- context [N.ltb ?x ?y] => destruct (N.ltb_spec x y)
          | |- context [N.leb ?x ?y] => destruct (N.leb_spec x y)
          end); simpl; try done; lia.
Qed.

Lemma encode_scalar s : Forall scalar s → is_Some (encode s).
Proof.
  intros Hs. unfold encode. apply fmap_is_Some, mapM_is_Some.
  eapply Forall_impl; [done|]. apply encode_char_scalar.
Qed.

Lemma encode_decode_replace bs : is_Some (encode (decode_replace bs)).
Proof. apply encode_scalar, decode_replace_scalar. Qed.

(** ** Lines *)

Lemma byte_eqb_eq (a b : byte) : Byte.eqb a b = true ↔ a = b.
Proof.
  split; [apply Byte.byte_dec_bl | apply Byte.byte_dec_lb].
Qed.

Global Instance byte_to_N_inj : Inj (=) (=) Byte.to_N.
Proof.
  intros a b Heq. apply (inj Some).
  by rewrite <-(Byte.of_to_N a), <-(Byte.of_to_N b), Heq.
Qed.

Lemma readline_nil : readline [] = ([], []).
Proof. done. Qed.

Lemma readline_lines_of bs :
  bs ≠ [] →
  ∃ line rest, readline bs = (line, rest) ∧ line ≠ []
    ∧ lines_of bs = line :: lines_of rest.
Proof.
  induction bs as [|b bs IH]; [done|]. intros _. simpl.
  destruct (Byte.eqb b x0a); [by eexists _, _|].
  destruct bs as [|b' bs].
  - by eexists _, _.
  - destruct IH as (line & rest & Hr & Hne & Hl); [done|].
    rewrite Hr, Hl. by eexists _, _.
Qed.

Lemma head_loop_lines n filename f e :
  head_loop n filename f e = head_lines filename (take n (lines_of f)) e.
Proof.
  revert f e. induction n as [|n IH]; intros f e; [done|].
  destruct f as [|b f]; [done|].
  destruct (readline_lines_of (b :: f)) as (line & rest & Hr & Hne & Hl);
    [done|].
  cbn [head_loop]. rewrite Hr, Hl. cbn [take head_lines].
  destruct line as [|c line]; [done|].
  destruct (decode (c :: line)); [apply IH | done].
Qed.

Lemma lines_of_is_line bs : Forall is_line (lines_of bs).
Proof.
  induction bs as [|b bs IH]; simpl; [constructor|].
  destruct (Byte.eqb b x0a) eqn:Hb.
  - apply byte_eqb_eq in Hb as ->. constructor; [|done].
    exists []. split; [by intros ?%elem_of_nil | by left].
  - assert (b ≠ x0a) as Hne.
    { intros ->. by rewrite (proj2 (byte_eqb_eq _ _) eq_refl) in Hb. }
    destruct (lines_of bs) as [|l ls].
    + constructor; [|done]. exists [b]. split; [|by right].
      by intros ?%list_elem_of_singleton.
    + apply Forall_cons in IH as [(body & Hbody & Hl) IH].
      constructor; [|done]. exists (b :: body). split.
      * intros [?|?]%elem_of_cons; by subst.
      * destruct Hl as [->|[-> ?]]; [by left | by right].
Qed.

Lemma decode_byte_newline st out st' :
  st_ok st → decode_byte st 10 = (out, st') →
  st' = Start ∧ ∃ pre, out = pre ++ [Some LF] ∧ Some LF ∉ pre.
Proof.
  destruct st as [|k cp lo hi]; simpl.
  - intros _ [= <- <-]. split; [done|]. exists [].
    split; [done | by intros ?%elem_of_nil].
  - intros (_ & Hlo & _). destruct (N.leb_spec lo 10); [lia|]. simpl.
    intros [= <- <-]. split; [done|]. exists [None].
    split; [done | by intros ?%list_elem_of_singleton].
Qed.

Lemma utf8_scan_lines st bs :
  st_ok st →
  utf8_scan st bs
  = match lines_of bs with
    | [] => utf8_scan st []
    | l :: ls => utf8_scan st l ++ concat (utf8_scan Start <$> ls)
    end.
Proof.
  revert st. induction bs as [|b bs IH]; intros st Hst; [done|].
  cbn [lines_of utf8_scan].
  destruct (decode_byte st (Byte.to_N b)) as [out st'] eqn:Hstep.
  destruct (Byte.eqb b x0a) eqn:Hb.
  - apply byte_eqb_eq in Hb as ->.
    change (Byte.to_N x0a) with 10 in Hstep.
    pose proof Hstep as [-> _]%decode_byte_newline; [|done].
    cbn [utf8_scan]. change (Byte.to_N x0a) with 10. rewrite Hstep.
    rewrite app_nil_r. f_equal. rewrite (IH Start I).
    by destruct (lines_of bs).
  - pose proof Hstep as [Hst' _]%decode_byte_ok; [|done].
    rewrite (IH st' Hst'). destruct (lines_of bs) as [|l ls].
    + cbn [utf8_scan]. rewrite Hstep. simpl. by rewrite app_nil_r.
    + cbn [utf8_scan]. rewrite Hstep. by rewrite <-(assoc_L (++)).
Qed.

Lemma utf8_scan_concat_lines bs :
  utf8_scan Start bs = concat (utf8_scan Start <$> lines_of bs).
Proof. rewrite (utf8_scan_lines Start bs I). by destruct (lines_of bs). Qed.

(** A file is valid UTF-8 exactly when each of its lines is. *)
Lemma decode_lines bs :
  is_Some (decode bs) ↔ Forall (λ l, is_Some (decode l)) (lines_of bs).
Proof.
  unfold decode. rewrite mapM_is_Some, utf8_scan_concat_lines.
  rewrite Forall_concat, Forall_fmap. apply Forall_proper; [|done].
  intros l. simpl. by rewrite mapM_is_Some.
Qed.

(** ** What [head] shows of a line *)

Lemma dropwhile_subseteq f (s : str) x : x ∈ dropwhile f s → x ∈ s.
Proof.
  induction s as [|c s IH]; simpl; [done|].
  destruct (f c); [|done]. intros ?. right. auto.
Qed.

Lemma rstrip_subseteq (s : str) x : x ∈ rstrip s → x ∈ s.
Proof.
  unfold rstrip, rstrip_by. rewrite elem_of_reverse.
  intros ?%dropwhile_subseteq. by apply elem_of_reverse.
Qed.

Lemma rstrip_snoc_space (s : str) c :
  isspace c = true → rstrip (s ++ [c]) = rstrip s.
Proof.
  intros Hc. unfold rstrip, rstrip_by. rewrite reverse_snoc. simpl.
  by rewrite Hc.
Qed.

Lemma utf8_scan_newline st body :
  st_ok st → x0a ∉ body →
  ∃ pre, utf8_scan st (body ++ [x0a]) = pre ++ [Some LF] ∧ Some LF ∉ pre.
Proof.
  revert st. induction body as [|b body IH]; intros st Hst Hbody.
  - simpl. change (Byte.to_N x0a) with 10.
    destruct (decode_byte st 10) as [out st'] eqn:Hstep.
    apply decode_byte_newline in Hstep as (-> & pre & -> & Hpre); [|done].
    exists pre. simpl. by rewrite app_nil_r.
  - apply not_elem_of_cons in Hbody as [Hb Hbody]. simpl.
    destruct (decode_byte st (Byte.to_N b)) as [out st'] eqn:Hstep.
    apply decode_byte_ok in Hstep as [Hst' Hout]; [|done].
    destruct (IH st' Hst' Hbody) as (pre & -> & Hpre).
    exists (out ++ pre). split; [by rewrite (assoc_L (++))|].
    intros [Hin|Hin]%elem_of_app; [|done].
    eapply Forall_forall in Hout; [|done].
    destruct (Hout LF eq_refl) as [_ Heq].
    apply Hb. apply (inj Byte.to_N). rewrite <-Heq; [done|]. unfold LF. lia.
Qed.

Lemma shown_line_has_no_newline l t :
  is_line l → decode l = Some t → LF ∉ rstrip t.
Proof.
  intros (body & Hbody & Hl) Hdec. unfold decode in Hdec.
  apply mapM_Some in Hdec. destruct Hl as [->|[-> _]].
  - destruct (utf8_scan_newline Start body I Hbody) as (pre & Hpre & Hno).
    rewrite Hpre in Hdec.
    apply Forall2_app_inv_l in Hdec as (t1 & t2 & H1 & H2 & ->).
    apply Forall2_cons_inv_l in H2 as (c & t3 & [= <-] & H3 & ->).
    apply Forall2_nil_inv_l in H3 as ->.
    rewrite rstrip_snoc_space by done. intros Hin%rstrip_subseteq.
    apply Hno. apply list_elem_of_lookup in Hin as [i Hi].
    destruct (Forall2_lookup_r _ _ _ _ _ H1 Hi) as (o & Ho & Heq).
    simpl in Heq. subst o. by eapply list_elem_of_lookup_2.
  - intros Hin%rstrip_subseteq.
    apply list_elem_of_lookup in Hin as [i Hi].
    destruct (Forall2_lookup_r _ _ _ _ _ Hdec Hi) as (o & Ho & Heq).
    simpl in Heq. subst o. apply list_elem_of_lookup_2 in Ho.
    destruct (utf8_scan_ok Start body LF I Ho) as [_ Hb].
    destruct Hb as (b & Hin & Hb); [unfold LF; lia|].
    apply Hbody. replace x0a with b; [done|]. by apply (inj Byte.to_N).
Qed.

(** ** [head] *)

Lemma head_lines_app filename pre texts rest e :
  Forall2 (λ l t, decode l = Some t) pre texts →
  head_lines filename (pre ++ rest) e
  = head_lines filename rest (print_all e (rstrip <$> texts)).
Proof.
  intros H. revert e. induction H as [|l t pre texts Hl _ IH]; intros e.
  - done.
  - simpl. rewrite Hl. apply IH.
Qed.

Lemma decoded_lines (ls : list bytes) :
  Forall (λ l, is_Some (decode l)) ls →
  ∃ texts, Forall2 (λ l t, decode l = Some t) ls texts.
Proof.
  intros H. destruct (mapM_is_Some_2 decode ls H) as [texts Ht].
  exists texts. by apply mapM_Some.
Qed.

Lemma count_app c (a b : str) : count c (a ++ b) = (count c a + count c b)%nat.
Proof. unfold count. by rewrite filter_app, length_app. Qed.

Lemma count_absent c (s : str) : c ∉ s → count c s = 0%nat.
Proof.
  unfold count. induction s as [|d s IH]; [done|].
  intros [Hd Hs]%not_elem_of_cons.
  rewrite filter_cons_False by (by intros ->). auto.
Qed.

Lemma count_printed (shown : list str) :
  Forall (λ s, LF ∉ s) shown →
  count LF (concat ((λ s, s ++ [LF]) <$> shown)) = length shown.
Proof.
  induction 1 as [|s shown Hs _ IH]; [done|].
  rewrite fmap_cons. cbn [concat].
  rewrite !count_app, IH, (count_absent _ s Hs). done.
Qed.

Lemma head_of_file e filename member f :
  getmember (members e) (lookup_name e filename) = Some member →
  extractfile (members e) member = FileObject f →
  head e filename = head_lines filename (take 10 (lines_of f)) e.
Proof.
  intros Hm Hf. unfold head. rewrite Hm, Hf. apply head_loop_lines.
Qed.

(** C7 (as amended): for a file that is valid UTF-8, [head] prints the
    first ten lines, or all of them when there are fewer, each decoded
    and with its trailing white space, newline included, stripped; this
    makes min(n, 10) lines of output. *)
Theorem head_prints_first_ten_lines e filename member f :
  getmember (members e) (lookup_name e filename) = Some member →
  extractfile (members e) member = FileObject f →
  is_Some (decode f) →
  ∃ texts,
    Forall2 (λ l t, decode l = Some t) (take 10 (lines_of f)) texts
    ∧ head e filename = print_all e (rstrip <$> texts)
    ∧ length texts = (length (lines_of f) `min` 10)%nat
    ∧ count LF (concat ((λ s, s ++ [LF]) <$> (rstrip <$> texts)))
      = (length (lines_of f) `min` 10)%nat.
Proof.
  intros Hm Hf Hvalid. apply decode_lines in Hvalid.
  destruct (decoded_lines (take 10 (lines_of f))) as [texts Htexts].
  { by apply Forall_take. }
  assert (length texts = (length (lines_of f) `min` 10)%nat) as Hlen.
  { rewrite <-(Forall2_length _ _ _ Htexts), length_take. lia. }
  exists texts. split_and!; [done | | done |].
  - rewrite (head_of_file _ _ _ _ Hm Hf).
    rewrite <-(app_nil_r (take 10 _)).
    by rewrite (head_lines_app _ _ _ _ _ Htexts).
  - rewrite count_printed; [by rewrite length_fmap|].
    apply Forall_fmap, Forall_forall. intros t Ht.
    apply list_elem_of_lookup in Ht as [i Hi].
    destruct (Forall2_lookup_r _ _ _ _ _ Htexts Hi) as (l & Hl & Hdec).
    eapply shown_line_has_no_newline; [|done].
    apply lookup_take_Some in Hl as [Hl _].
    eapply Forall_lookup_1; [apply lines_of_is_line | done].
Qed.

Lemma head_prints_first_ten_lines_witness :
  ∃ texts,
    Forall2 (λ l t, decode l = Some t)
      (take 10 (lines_of (utf8 "Hello World" ++ [x0a]
                          ++ utf8 "This is a test" ++ [x0a]))) texts
    ∧ head test_emulator (lit "file1.txt")
      = print_all test_emulator (rstrip <$> texts)
    ∧ length texts = 2%nat
    ∧ count LF (concat ((λ s, s ++ [LF]) <$> (rstrip <$> texts))) = 2%nat.
Proof.
  apply (head_prints_first_ten_lines test_emulator (lit "file1.txt")
           (0%nat, test_file "file1.txt"
              (utf8 "Hello World" ++ [x0a] ++ utf8 "This is a test" ++ [x0a]))).
  - reflexivity.
  - reflexivity.
  - vm_compute. eauto.
Defined.

(** C7 (counterexample): a line that ends in a space is shown without
    the space, not merely without its newline. *)
Lemma head_strips_trailing_space :
  decode (utf8 "a " ++ [x0a]) = Some (lit "a " ++ [LF])
  ∧ stdout (head odd_emulator (lit "notes.txt")) = lit "a" ++ [LF]
  ∧ stdout (head odd_emulator (lit "notes.txt"))
    ≠ chomp (lit "a " ++ [LF]) ++ [LF].
Proof. split_and!; [by vm_compute.. | vm_compute; discriminate]. Qed.

(** C4 (as amended): for a file that is not valid UTF-8, [head] prints
    the lines before the first line that does not decode, then reports
    the invalid encoding and prints nothing more, provided that line is
    among the first ten; otherwise it prints the first ten lines and
    reports nothing. *)
Theorem head_stops_at_undecodable_line e filename member f :
  getmember (members e) (lookup_name e filename) = Some member →
  extractfile (members e) member = FileObject f →
  decode f = None →
  ∃ pre bad post texts,
    lines_of f = pre ++ bad :: post
    ∧ Forall2 (λ l t, decode l = Some t) pre texts
    ∧ decode bad = None
    ∧ head e filename
      = if decide (length pre < 10)%nat
        then print (print_all e (rstrip <$> texts)) (invalid_encoding filename)
        else print_all e (rstrip <$> take 10 texts).
Proof.
  intros Hm Hf Hbad.
  destruct (list_find (λ l, decode l = None) (lines_of f)) as [[i bad]|]
    eqn:Hfind.
  2: { apply list_find_None in Hfind.
       assert (is_Some (decode f)) as [? ?]; [|congruence].
       apply decode_lines. eapply Forall_impl; [done|]. simpl.
       intros l Hl. by destruct (decode l). }
  apply list_find_Some in Hfind as (Hi & Hb & Hfirst).
  set (pre := take i (lines_of f)). set (post := drop (S i) (lines_of f)).
  assert (lines_of f = pre ++ bad :: post) as Hlines.
  { symmetry. by apply take_drop_middle. }
  assert (length pre = i) as Hlen.
  { apply length_take_le. apply lookup_lt_Some in Hi. lia. }
  destruct (decoded_lines pre) as [texts Htexts].
  { apply Forall_forall. intros l Hl.
    apply list_elem_of_lookup in Hl as [j Hj].
    apply lookup_take_Some in Hj as [Hj Hlt].
    specialize (Hfirst j l Hj Hlt). by destruct (decode l). }
  exists pre, bad, post, texts. split_and!; [done..|].
  rewrite (head_of_file _ _ _ _ Hm Hf), Hlines.
  destruct (decide (length pre < 10)%nat) as [Hshort|Hlong].
  - rewrite take_app_ge by lia.
    rewrite (head_lines_app _ _ _ _ _ Htexts).
    destruct (10 - length pre)%nat as [|n] eqn:Hn; [lia|].
    simpl. by rewrite Hb.
  - rewrite take_app_le by lia. rewrite <-(app_nil_r (take 10 pre)).
    by rewrite (head_lines_app _ _ (take 10 texts)) by (by apply Forall2_take).
Qed.

Lemma head_stops_at_undecodable_line_witness :
  ∃ pre bad post texts,
    lines_of [xff; xfe] = pre ++ bad :: post
    ∧ Forall2 (λ l t, decode l = Some t) pre texts
    ∧ decode bad = None
    ∧ head test_emulator (lit "binaryfile")
      = if decide (length pre < 10)%nat
        then print (print_all test_emulator (rstrip <$> texts))
                   (invalid_encoding (lit "binaryfile"))
        else print_all test_emulator (rstrip <$> take 10 texts).
Proof.
  apply (head_stops_at_undecodable_line test_emulator (lit "binaryfile")
           (7%nat, test_file "binaryfile" [xff; xfe])); reflexivity.
Defined.

(** C4 (counterexample): the second line of [mixed.bin] is not UTF-8;
    [head] prints its first line before it reports the encoding. *)
Lemma head_prints_lines_before_error :
  decode (utf8 "ok" ++ [x0a; xff; x0a]) = None
  ∧ stdout (head odd_emulator (lit "mixed.bin"))
    = lit "ok" ++ [LF] ++ invalid_encoding (lit "mixed.bin") ++ [LF].
Proof. by vm_compute. Qed.

(** ** [wc] *)

Example wc_test_files :
  stdout (wc test_emulator (lit "file1.txt")) = lit "2 6 27 file1.txt" ++ [LF]
  ∧ stdout (wc test_emulator (lit "empty.txt")) = lit "0 0 0 empty.txt" ++ [LF]
  ∧ stdout (wc test_emulator (lit "binaryfile")) = lit "0 1 6 binaryfile" ++ [LF].
Proof. by vm_compute. Qed.

(** ** Splitting and joining paths *)

Lemma split_on_cons_nonempty c s : split_on c s ≠ [].
Proof. destruct (split_on_hd c s) as (x & fs & -> & _). done. Qed.

Lemma split_on_free c s : Forall (λ f, c ∉ f) (split_on c s).
Proof.
  induction s as [|d s IH]; simpl.
  - repeat constructor. by intros ?%elem_of_nil.
  - destruct (N.eqb_spec d c) as [->|Hne].
    + constructor; [by intros ?%elem_of_nil | done].
    + destruct (split_on c s) as [|f fs]; [repeat constructor|].
      * by intros ?%list_elem_of_singleton.
      * apply Forall_cons in IH as [Hf Hfs]. constructor; [|done].
        intros [?|?]%elem_of_cons; by subst.
Qed.

Lemma split_on_app c (a b : str) :
  split_on c (a ++ c :: b) = match split_on c a with
                             | [] => split_on c b
                             | _ => split_on c a ++ split_on c b
                             end.
Proof.
  pose proof (split_on_cons_nonempty c a).
  induction a as [|d a IH]; simpl.
  - by rewrite N.eqb_refl.
  - destruct (N.eqb_spec d c) as [->|Hne]; simpl.
    + f_equal. destruct (split_on c a) eqn:E; [|by apply IH].
      by destruct (split_on_cons_nonempty c a).
    + destruct (split_on c a) as [|f fs] eqn:E.
      { by destruct (split_on_cons_nonempty c a). }
      rewrite IH by done. done.
Qed.

Lemma split_on_snoc_field c (a b : str) :
  split_on c (a ++ c :: b) = split_on c a ++ split_on c b.
Proof.
  rewrite split_on_app. destruct (split_on c a) eqn:E; [|done].
  by destruct (split_on_cons_nonempty c a).
Qed.

Lemma split_on_absent c (s : str) : c ∉ s → split_on c s = [s].
Proof.
  induction s as [|d s IH]; [done|]. intros [Hd Hs]%not_elem_of_cons. simpl.
  destruct (N.eqb_spec d c); [by subst|]. by rewrite IH.
Qed.

Lemma join_with_cons c (f : str) (fs : list str) :
  fs ≠ [] → join_with c (f :: fs) = f ++ c :: join_with c fs.
Proof. by destruct fs. Qed.

Lemma join_with_snoc c (fs : list str) (f : str) :
  fs ≠ [] → join_with c (fs ++ [f]) = join_with c fs ++ c :: f.
Proof.
  induction fs as [|g fs IH]; [done|]. intros _.
  destruct fs as [|h fs]; [done|].
  change ((g :: h :: fs) ++ [f]) with (g :: (h :: fs) ++ [f]).
  rewrite (join_with_cons c g ((h :: fs) ++ [f])) by done.
  rewrite IH by done. rewrite (join_with_cons c g (h :: fs)) by done.
  by rewrite <-(assoc_L (++)).
Qed.

Lemma split_on_join c (fs : list str) :
  fs ≠ [] → Forall (λ f, c ∉ f) fs → split_on c (join_with c fs) = fs.
Proof.
  induction fs as [|f fs IH]; [done|]. intros _ [Hf Hfs]%Forall_cons.
  destruct fs as [|g fs]; [by apply split_on_absent|].
  rewrite join_with_cons by done. rewrite split_on_snoc_field.
  rewrite split_on_absent by done. by rewrite IH.
Qed.

Lemma split_on_replicate c k (s : str) :
  split_on c (replicate k c ++ s) = replicate k [] ++ split_on c s.
Proof.
  induction k as [|k IH]; [done|]. simpl. by rewrite N.eqb_refl, IH.
Qed.

(** ** The loop of [normpath] *)

Lemma ordinary_segment c : ordinary c → segment c.
Proof. by intros [? _]. Qed.

Lemma Forall_removelast {A} (P : A → Prop) (l : list A) :
  Forall P l → Forall P (removelast l).
Proof.
  induction 1 as [|x l Hx Hl IH]; [constructor|].
  destruct l; [constructor|]. by constructor.
Qed.

Lemma normpath_step_skip i acc comp :
  comp = [] ∨ comp = DOT → normpath_step i acc comp = acc.
Proof. unfold normpath_step. intros [-> | ->]; done. Qed.

Lemma normpath_step_ordinary i acc comp :
  ordinary comp → normpath_step i acc comp = acc ++ [comp].
Proof.
  intros [(Hne & Hdot & _) Hdd]. unfold normpath_step.
  rewrite !bool_decide_eq_false_2 by done. simpl.
  by rewrite (bool_decide_eq_true_2 (comp ≠ DOTDOT)) by done.
Qed.

Lemma normpath_step_dotdot i acc comp :
  i ≠ 0%nat → ordinary comp →
  normpath_step i (acc ++ [comp]) DOTDOT = acc.
Proof.
  intros Hi [_ Hdd]. unfold normpath_step. rewrite last_snoc.
  repeat case_bool_decide; simplify_eq/=; try done; apply removelast_last.
Qed.

Lemma normpath_step_segment i acc comp :
  Forall segment acc → SLASH ∉ comp →
  Forall segment (normpath_step i acc comp).
Proof.
  intros Hacc Hcomp. unfold normpath_step.
  destruct (decide (comp = [])) as [->|Hne]; [done|].
  destruct (decide (comp = DOT)) as [->|Hdot]; [done|].
  rewrite !bool_decide_eq_false_2 by done. simpl.
  case_match; [|by apply Forall_removelast].
  apply Forall_app. split; [done|]. by repeat constructor.
Qed.

Lemma normpath_step_absolute i acc comp :
  i ≠ 0%nat → Forall ordinary acc → SLASH ∉ comp →
  Forall ordinary (normpath_step i acc comp).
Proof.
  intros Hi Hacc Hcomp.
  destruct (decide (comp = [])) as [->|Hne]; [done|].
  destruct (decide (comp = DOT)) as [->|Hdot]; [done|].
  destruct (decide (comp = DOTDOT)) as [->|Hdd].
  - assert (last acc ≠ Some DOTDOT) as Hlast.
    { intros Hlast. apply last_Some in Hlast as [acc' ->].
      apply Forall_app in Hacc as [_ [[_ Hbad] _]%Forall_cons]. done. }
    unfold normpath_step.
    repeat case_bool_decide; simplify_eq/=; try done;
      by apply Forall_removelast.
  - rewrite normpath_step_ordinary by done.
    apply Forall_app. split; [done|]. by repeat constructor.
Qed.

Lemma normpath_fold_segment i acc comps :
  Forall segment acc → Forall (λ c, SLASH ∉ c) comps →
  Forall segment (foldl (normpath_step i) acc comps).
Proof.
  intros Hacc Hcomps. revert acc Hacc.
  induction Hcomps as [|c comps Hc _ IH]; intros acc Hacc; [done|].
  simpl. apply IH. by apply normpath_step_segment.
Qed.

Lemma normpath_fold_absolute i acc comps :
  i ≠ 0%nat → Forall ordinary acc → Forall (λ c, SLASH ∉ c) comps →
  Forall ordinary (foldl (normpath_step i) acc comps).
Proof.
  intros Hi Hacc Hcomps. revert acc Hacc.
  induction Hcomps as [|c comps Hc _ IH]; intros acc Hacc; [done|].
  simpl. apply IH. by apply normpath_step_absolute.
Qed.

Lemma normpath_fold_empties i acc k comps :
  foldl (normpath_step i) acc (replicate k [] ++ comps)
  = foldl (normpath_step i) acc comps.
Proof.
  induction k as [|k IH]; [done|]. cbn [replicate app foldl].
  rewrite normpath_step_skip by (by left). apply IH.
Qed.

Lemma normpath_fold_ordinary i acc comps :
  Forall ordinary comps → foldl (normpath_step i) acc comps = acc ++ comps.
Proof.
  intros Hcomps. revert acc.
  induction Hcomps as [|c comps Hc _ IH]; intros acc; simpl.
  - by rewrite app_nil_r.
  - rewrite normpath_step_ordinary by done. rewrite IH.
    by rewrite <-(assoc_L (++)).
Qed.

(** ** Leading slashes *)

Lemma initial_slashes_cases path :
  (initial_slashes path = 0%nat ∧ startswith path [SLASH] = false)
  ∨ ((initial_slashes path = 1 ∨ initial_slashes path = 2)%nat
     ∧ startswith path [SLASH] = true).
Proof.
  unfold initial_slashes. destruct (startswith path [SLASH]); [right|by left].
  split; [|done]. case_match; auto.
Qed.

Lemma initial_slashes_replicate k (rest : str) :
  (k = 1 ∨ k = 2)%nat → startswith rest [SLASH] = false →
  initial_slashes (replicate k SLASH ++ rest) = k.
Proof.
  intros [-> | ->] Hrest; unfold initial_slashes;
    (destruct rest as [|c rest]; [done|]);
    cbn [replicate app startswith] in *; rewrite !N.eqb_refl;
    by destruct (SLASH =? c).
Qed.

Lemma join_with_head c (f : str) (fs : list str) x (f' : str) :
  f = x :: f' → ∃ rest, join_with c (f :: fs) = x :: rest.
Proof. intros ->. destruct fs; simpl; eauto. Qed.

Lemma join_segments_no_slash_head comps :
  Forall segment comps →
  startswith (join_with SLASH comps) [SLASH] = false.
Proof.
  intros H. destruct H as [|c comps (Hne & _ & Hfree) _]; [done|].
  destruct c as [|x c]; [done|].
  destruct (join_with_head SLASH (x :: c) comps x c eq_refl) as [rest ->].
  cbn [startswith]. destruct (N.eqb_spec SLASH x) as [<-|]; [|done].
  exfalso. apply Hfree. by left.
Qed.

(** ** Stripping slashes *)

Lemma dropwhile_replicate f k c (s : str) :
  f c = true → dropwhile f (replicate k c ++ s) = dropwhile f s.
Proof. intros Hc. induction k as [|k IH]; [done|]. simpl. by rewrite Hc. Qed.

Lemma lstrip_no_slash_head (s : str) :
  startswith s [SLASH] = false → lstrip_by is_slash s = s.
Proof.
  destruct s as [|c s]; [done|]. unfold lstrip_by, is_slash.
  cbn [startswith dropwhile]. rewrite N.eqb_sym.
  by destruct (c =? SLASH).
Qed.

Lemma rstrip_by_last f (s : str) c :
  last s = Some c → f c = false → rstrip_by f s = s.
Proof.
  intros [s' ->]%last_Some Hc. unfold rstrip_by. rewrite reverse_snoc.
  simpl. rewrite Hc. by rewrite reverse_cons, reverse_involutive.
Qed.

Lemma rstrip_by_replicate f k c :
  f c = true → rstrip_by f (replicate k c) = [].
Proof.
  intros Hc. unfold rstrip_by. rewrite reverse_replicate.
  rewrite <-(app_nil_r (replicate k c)). by rewrite dropwhile_replicate.
Qed.

Lemma join_with_prefix c (f : str) (fs : list str) :
  ∃ tail, join_with c (f :: fs) = f ++ tail.
Proof.
  destruct fs as [|g fs]; [exists []; by rewrite app_nil_r|].
  rewrite join_with_cons by done. by eexists.
Qed.

Lemma join_segments_last comps :
  comps ≠ [] → Forall segment comps →
  ∃ c, last (join_with SLASH comps) = Some c ∧ c ≠ SLASH.
Proof.
  intros Hne Hall.
  destruct (decide (comps = [])) as [|_]; [done|].
  assert (∃ fs f, comps = fs ++ [f]) as (fs & f & ->).
  { destruct (last comps) as [f|] eqn:E.
    - apply last_Some in E as [fs ->]. eauto.
    - by apply last_None in E. }
  apply Forall_app in Hall as [_ [(Hf & _ & Hfree) _]%Forall_cons].
  assert (∃ f' x, f = f' ++ [x]) as (f' & x & ->).
  { destruct (last f) as [x|] eqn:E.
    - apply last_Some in E as [f' ->]. eauto.
    - by apply last_None in E. }
  exists x. split.
  - destruct fs as [|g fs]; [apply last_snoc|].
    rewrite join_with_snoc by done.
    rewrite app_comm_cons, (assoc_L (++)). apply last_snoc.
  - intros ->. apply Hfree. apply elem_of_app. right. by left.
Qed.

Lemma strip_slashes_join k comps :
  Forall segment comps →
  strip_by is_slash (replicate k SLASH ++ join_with SLASH comps)
  = join_with SLASH comps
  ∧ lstrip_by is_slash (replicate k SLASH ++ join_with SLASH comps)
    = join_with SLASH comps.
Proof.
  intros Hall. unfold strip_by, lstrip_by at 2.
  rewrite (dropwhile_replicate is_slash k SLASH) by done.
  fold (lstrip_by is_slash (join_with SLASH comps)).
  rewrite (lstrip_no_slash_head (join_with SLASH comps))
    by (by apply join_segments_no_slash_head).
  split; [|done].
  destruct (decide (comps = [])) as [->|Hne].
  - simpl. rewrite app_nil_r. by rewrite rstrip_by_replicate.
  - destruct (join_segments_last comps Hne Hall) as (c & Hlast & Hc).
    rewrite (rstrip_by_last is_slash _ c).
    + unfold lstrip_by. rewrite dropwhile_replicate by done.
      by apply lstrip_no_slash_head, join_segments_no_slash_head.
    + rewrite last_app, Hlast. done.
    + unfold is_slash. by apply N.eqb_neq.
Qed.

Lemma normalize_join_segments comps :
  Forall segment comps →
  normalize_member_name (join_with SLASH comps) = join_with SLASH comps.
Proof.
  intros Hall. unfold normalize_member_name.
  destruct Hall as [|c comps (Hne & Hdot & Hfree) _]; [done|].
  destruct (join_with_prefix SLASH c comps) as [tail ->].
  destruct c as [|x [|y c]]; [done| |].
  - destruct (N.eqb_spec x 46) as [->|Hx]; [done|].
    cbn [app startswith lit fmap list_fmap list_ascii_of_string].
    change (N_of_ascii "."%char) with 46. rewrite N.eqb_sym.
    by rewrite (proj2 (N.eqb_neq x 46)).
  - cbn [app startswith lit fmap list_fmap list_ascii_of_string].
    change (N_of_ascii "/"%char) with SLASH.
    assert ((SLASH =? y) = false) as ->; [|by rewrite andb_false_r].
    apply N.eqb_neq. intros <-. apply Hfree. right. by left.
Qed.

(** ** The shape of what [normpath] returns *)

Lemma normpath_unfold path :
  path ≠ [] →
  let k := initial_slashes path in
  let comps := foldl (normpath_step k) [] (split_on SLASH path) in
  normpath path = if bool_decide (replicate k SLASH ++ join_with SLASH comps = [])
                  then DOT
                  else replicate k SLASH ++ join_with SLASH comps.
Proof. intros Hne. unfold normpath. by rewrite bool_decide_eq_false_2. Qed.

Lemma normpath_shape path :
  normpath path = DOT
  ∨ ∃ k comps, Forall segment comps
      ∧ normpath path = replicate k SLASH ++ join_with SLASH comps.
Proof.
  destruct (decide (path = [])) as [->|Hne]; [by left|].
  rewrite (normpath_unfold path Hne). case_bool_decide; [by left|].
  right. eexists _, _. split; [|done].
  apply normpath_fold_segment; [constructor | apply split_on_free].
Qed.

Lemma normpath_absolute path :
  startswith path [SLASH] = true → canonical (normpath path).
Proof.
  intros Habs. assert (path ≠ []) as Hne by (by intros ->).
  rewrite (normpath_unfold path Hne).
  destruct (initial_slashes_cases path) as [[_ ?]|[Hk _]]; [congruence|].
  rewrite bool_decide_eq_false_2 by (by destruct Hk as [-> | ->]).
  eexists _, _. split_and!; [apply Hk | | done].
  apply normpath_fold_absolute; [by destruct Hk as [-> | ->] | constructor |].
  apply split_on_free.
Qed.

Lemma cd_prefix_normpath path :
  cd_prefix (normpath path) = lstrip_by is_slash (normpath path) ++ [SLASH].
Proof.
  unfold cd_prefix. f_equal.
  destruct (normpath_shape path) as [->|(k & comps & Hall & ->)]; [done|].
  destruct (strip_slashes_join k comps Hall) as [-> ->].
  by apply normalize_join_segments.
Qed.

(** ** Names stored with a leading dot and slash *)

(** The name [head], [chown] and [wc] look up is the resolved path
    without its leading slashes: [normalize_member_name] never finds a
    dot and a slash to remove there. *)
Lemma lookup_name_unchanged e filename :
  lookup_name e filename = lstrip_by is_slash (resolve e filename).
Proof.
  unfold lookup_name, resolve.
  destruct (normpath_shape (path_join (current_dir e) filename))
    as [->|(k & comps & Hall & ->)]; [done|].
  destruct (strip_slashes_join k comps Hall) as [_ ->].
  by apply normalize_join_segments.
Qed.

(** C2 (the code at the failing input): in an archive whose names start
    with a dot and a slash, [ls] and [cd] see [file1.txt] and [dir1],
    but [chown], [head] and [wc] do not find [file1.txt]: they compare
    the name as stored with the name looked up, and stripping the name
    looked up changes nothing. *)
Theorem dot_slash_entry_not_found :
  stdout (ls dot_slash_emulator) = lit "dir1  file1.txt  " ++ [LF]
  ∧ current_dir (cd dot_slash_emulator (lit "dir1")) = lit "/dir1"
  ∧ chown dot_slash_emulator (lit "bob") (lit "file1.txt")
    = print dot_slash_emulator
        (lit "chown: cannot access 'file1.txt': No such file or directory")
  ∧ head dot_slash_emulator (lit "file1.txt")
    = print dot_slash_emulator
        (lit "head: cannot open 'file1.txt' for reading: No such file or directory")
  ∧ wc dot_slash_emulator (lit "file1.txt")
    = print dot_slash_emulator
        (lit "wc: file1.txt: No such file or directory")
  ∧ lookup_name dot_slash_emulator (lit "./file1.txt") = lit "file1.txt".
Proof. by vm_compute. Qed.

(** ** [cd] *)

Lemma existsb_startswith (ms : list TarInfo) prefix :
  existsb (λ member, startswith (normalize_member_name (name member)) prefix)
          ms = true
  ↔ ∃ m, m ∈ ms
      ∧ startswith (normalize_member_name (name m)) prefix = true.
Proof.
  rewrite existsb_exists. split; intros (m & Hin & Hm); exists m;
    (split; [by apply list_elem_of_In | done]).
Qed.

(** The three ways [cd] ends, by the resolved path as [normpath]
    returns it: the one slash; another path that the stripped name of
    some member goes on below; any other path. *)
Lemma cd_cases e path :
  (resolve e path = [SLASH] → cd e path = set_current_dir e [SLASH])
  ∧ (resolve e path ≠ [SLASH] →
     (∃ m, m ∈ members e
        ∧ startswith (normalize_member_name (name m))
                     (lstrip_by is_slash (resolve e path) ++ [SLASH]) = true) →
     cd e path = set_current_dir e (resolve e path))
  ∧ (resolve e path ≠ [SLASH] →
     (¬ ∃ m, m ∈ members e
        ∧ startswith (normalize_member_name (name m))
                     (lstrip_by is_slash (resolve e path) ++ [SLASH]) = true) →
     cd e path
     = print e (lit "cd: " ++ path ++ lit ": No such file or directory")).
Proof.
  unfold cd. split_and!.
  - intros ->. done.
  - intros Hne Hex. rewrite bool_decide_eq_false_2 by done.
    unfold resolve in *. rewrite cd_prefix_normpath.
    by rewrite (proj2 (existsb_startswith _ _) Hex).
  - intros Hne Hex. rewrite bool_decide_eq_false_2 by done.
    unfold resolve in *. rewrite cd_prefix_normpath.
    destruct (existsb _ _) eqn:E; [|done].
    exfalso. apply Hex. by apply existsb_startswith.
Qed.

Example cd_tests :
  cd (cd test_emulator (lit "dir1")) (lit "/") = test_emulator
  ∧ current_dir (cd test_emulator (lit "dir2")) = lit "/dir2"
  ∧ cd test_emulator (lit "nonexistent")
    = print test_emulator (lit "cd: nonexistent: No such file or directory")
  ∧ current_dir (cd (cd test_emulator (lit "dir1")) (lit "../dir2/..")) = lit "/".
Proof. by vm_compute. Qed.

(** ** Into a child directory and back *)

Lemma dotdot_segment : segment DOTDOT.
Proof.
  split_and!; [done | done |].
  intros [?|[?|?%elem_of_nil]%elem_of_cons]%elem_of_cons; done.
Qed.

Lemma path_join_segment k comps c :
  (k = 1 ∨ k = 2)%nat → Forall segment comps → segment c →
  path_join (replicate k SLASH ++ join_with SLASH comps) c
  = replicate k SLASH ++ join_with SLASH (comps ++ [c]).
Proof.
  intros Hk Hall Hc. unfold path_join.
  assert (startswith c [SLASH] = false) as ->.
  { apply (join_segments_no_slash_head [c]). by constructor. }
  rewrite bool_decide_eq_false_2 by (by destruct Hk as [-> | ->]).
  unfold endswith. change (reverse [SLASH]) with [SLASH]. cbn [orb].
  destruct (decide (comps = [])) as [->|Hne].
  - cbn [join_with]. rewrite app_nil_r, reverse_replicate.
    by destruct Hk as [-> | ->].
  - destruct (join_segments_last comps Hne Hall) as (x & Hlast & Hx).
    assert (last (replicate k SLASH ++ join_with SLASH comps) = Some x)
      as [s' Hs']%last_Some by (by rewrite last_app, Hlast).
    rewrite Hs', reverse_snoc. cbn [startswith].
    rewrite (proj2 (N.eqb_neq SLASH x)) by done. cbn [andb].
    rewrite <-Hs', join_with_snoc by done. by rewrite <-(assoc_L (++)).
Qed.

Lemma normpath_slashes_join k comps :
  (k = 1 ∨ k = 2)%nat → Forall segment comps →
  normpath (replicate k SLASH ++ join_with SLASH comps)
  = replicate k SLASH
    ++ join_with SLASH (foldl (normpath_step k) [] comps).
Proof.
  intros Hk Hall.
  rewrite normpath_unfold by (by destruct Hk as [-> | ->]).
  rewrite initial_slashes_replicate
    by (done || by apply join_segments_no_slash_head).
  rewrite bool_decide_eq_false_2 by (by destruct Hk as [-> | ->]).
  rewrite split_on_replicate, normpath_fold_empties.
  destruct (decide (comps = [])) as [->|Hne]; [done|].
  rewrite split_on_join; [done | done |].
  eapply Forall_impl; [done|]. by intros c (_ & _ & ?).
Qed.

Lemma canonical_absolute d : canonical d → ∃ rest, d = SLASH :: rest.
Proof. intros (k & comps & [-> | ->] & _ & ->); by eexists. Qed.

Lemma path_join_absolute d path :
  canonical d → startswith (path_join d path) [SLASH] = true.
Proof.
  intros [rest ->]%canonical_absolute. unfold path_join.
  destruct (startswith path [SLASH]) eqn:E; [done|].
  case_match; cbn [app startswith]; by rewrite N.eqb_refl.
Qed.

Lemma set_current_dir_id e : set_current_dir e (current_dir e) = e.
Proof. by destruct e. Qed.

Lemma reachable_invariant ms d :
  reachable ms d → canonical d ∧ (d = [SLASH] ∨ dir_exists ms d = true).
Proof.
  induction 1 as [|e path Hms _ [Hcan Hdir]].
  - split; [|by left]. exists 1%nat, []. by split_and!; [left | |].
  - unfold cd. case_bool_decide as Hroot.
    + split; [|by left]. exists 1%nat, []. by split_and!; [left | |].
    + destruct (existsb _ _) eqn:E; simpl.
      * split; [|right; by rewrite <-Hms].
        by apply normpath_absolute, path_join_absolute.
      * done.
Qed.

Lemma ls_prefix_canonical k comps :
  Forall segment comps →
  ls_prefix (replicate k SLASH ++ join_with SLASH comps)
  = if decide (comps = []) then [] else join_with SLASH comps ++ [SLASH].
Proof.
  intros Hall. unfold ls_prefix.
  destruct (strip_slashes_join k comps Hall) as [-> _].
  destruct (decide (comps = [])) as [->|Hne]; [done|].
  rewrite bool_decide_eq_false_2; [done|].
  destruct (join_segments_last comps Hne Hall) as (x & Hlast & _).
  intros Heq. by rewrite Heq in Hlast.
Qed.

(** C9: from a reachable directory, [cd] into a child directory
    succeeds without a word and makes the joined path the current
    directory, and [cd ..] then restores the emulator as it was.  A
    reachable directory is an absolute path without [..] components,
    whatever path [cd] was given, and [cd ..] at the root stays at the
    root. *)
Theorem cd_child_then_parent e c :
  reachable (members e) (current_dir e) → child_dir e c →
  cd e c = set_current_dir e (path_join (current_dir e) c)
  ∧ cd (cd e c) DOTDOT = e
  ∧ canonical (current_dir e)
  ∧ (∀ path, canonical (current_dir (cd e path)))
  ∧ (current_dir e = [SLASH] → cd e DOTDOT = e).
Proof.
  intros Hreach [Hc (m & Hin & Hm)].
  destruct (reachable_invariant _ _ Hreach) as [Hcan Hdir].
  pose proof Hcan as (k & comps & Hk & Hall & Hd).
  assert (Forall segment comps) as Hseg.
  { eapply Forall_impl; [done|]. apply ordinary_segment. }
  assert (Forall segment (comps ++ [c])) as Hseg'.
  { apply Forall_app. split; [done|]. constructor; [|done].
    by apply ordinary_segment. }
  assert (resolve e c
          = replicate k SLASH ++ join_with SLASH (comps ++ [c])) as Hres.
  { unfold resolve. rewrite Hd.
    rewrite path_join_segment by (done || by apply ordinary_segment).
    rewrite normpath_slashes_join by done.
    rewrite normpath_fold_ordinary; [done|].
    apply Forall_app. split; [done | by constructor]. }
  assert (resolve e c = path_join (current_dir e) c) as Hjoin.
  { rewrite Hres, Hd.
    by rewrite path_join_segment by (done || by apply ordinary_segment). }
  assert (cd e c = set_current_dir e (resolve e c)) as Hcd.
  { unfold cd. rewrite bool_decide_eq_false_2.
    - rewrite (proj2 (existsb_startswith _ _)); [done|].
      exists m. split; [done|]. rewrite <-Hm. f_equal.
      unfold resolve. rewrite cd_prefix_normpath. fold (resolve e c).
      rewrite Hres, Hd.
      destruct (strip_slashes_join k (comps ++ [c]) Hseg') as [_ ->].
      rewrite ls_prefix_canonical by done.
      destruct (decide (comps = [])) as [->|Hne]; [done|].
      rewrite join_with_snoc by done.
      by rewrite <-!(assoc_L (++)).
    - intros Heq.
      destruct (strip_slashes_join k (comps ++ [c]) Hseg') as [_ Hl].
      rewrite <-Hres, Heq in Hl.
      destruct (join_segments_last (comps ++ [c])) as (x & Hlast & _);
        [by destruct comps | done |].
      by rewrite <-Hl in Hlast. }
  split_and!; [by rewrite Hcd, Hjoin | | done | |].
  - rewrite Hcd. unfold cd at 1.
    assert (resolve (set_current_dir e (resolve e c)) DOTDOT = current_dir e)
      as ->.
    { unfold resolve at 1. cbn [current_dir set_current_dir]. rewrite Hres.
      rewrite path_join_segment; [|done|done|apply dotdot_segment].
      rewrite normpath_slashes_join; [|done|].
      2: { apply Forall_app. split; [done|].
           constructor; [apply dotdot_segment | done]. }
      rewrite foldl_app. rewrite (normpath_fold_ordinary k [] (comps ++ [c])).
      2: { apply Forall_app. split; [done | by constructor]. }
      cbn [foldl app]. rewrite normpath_step_dotdot; [by rewrite Hd| |done].
      by destruct Hk as [-> | ->]. }
    destruct Hdir as [Hroot|Hex].
    + rewrite bool_decide_eq_true_2 by done. rewrite <-Hroot.
      by destruct e.
    + case_bool_decide as Hroot.
      * rewrite <-Hroot. by destruct e.
      * unfold dir_exists in Hex. cbn [members set_current_dir].
        rewrite Hex. by destruct e.
  - intros path. eapply reachable_invariant. by apply reach_cd.
  - intros Hroot. unfold cd, resolve. rewrite Hroot.
    change (normpath (path_join [SLASH] DOTDOT)) with [SLASH].
    rewrite bool_decide_eq_true_2 by done. rewrite <-Hroot. by destruct e.
Qed.

Lemma cd_child_then_parent_witness :
  cd test_emulator (lit "dir1")
  = set_current_dir test_emulator (path_join [SLASH] (lit "dir1"))
  ∧ cd (cd test_emulator (lit "dir1")) DOTDOT = test_emulator
  ∧ canonical (current_dir test_emulator)
  ∧ (∀ path, canonical (current_dir (cd test_emulator path)))
  ∧ (current_dir test_emulator = [SLASH] → cd test_emulator DOTDOT = test_emulator).
Proof.
  apply (cd_child_then_parent test_emulator (lit "dir1")).
  - apply reach_root.
  - split.
    + unfold ordinary, segment. apply (bool_decide_unpack _).
      vm_compute. exact I.
    + exists (test_file "dir1/file3.txt"
                (utf8 "File in a directory." ++ [x0a] ++ utf8 "Line 2." ++ [x0a])).
      split; [|reflexivity]. do 2 right. left.
Defined.

(** ** What each handler touches *)

Lemma head_loop_appends n filename f e :
  ∃ out, head_loop n filename f e = set_stdout e (stdout e ++ out).
Proof.
  revert f e. induction n as [|n IH]; intros f e; simpl.
  - exists []. by rewrite app_nil_r, set_stdout_id.
  - destruct (readline f) as [line f']. destruct line as [|b line].
    + exists []. by rewrite app_nil_r, set_stdout_id.
    + destruct (decode (b :: line)) as [decoded|].
      * destruct (IH f' (print e (rstrip decoded))) as [out ->].
        eexists. unfold print. rewrite print_end_eq, set_stdout_twice.
        simpl. by rewrite <-(assoc_L (++)).
      * by eexists.
Qed.

Lemma ls_appends e : ∃ out, ls e = set_stdout e (stdout e ++ out).
Proof.
  unfold ls. rewrite foldl_print_end. unfold print.
  rewrite print_end_eq, set_stdout_twice. simpl.
  eexists. by rewrite <-(assoc_L (++)).
Qed.

Lemma head_appends e filename :
  ∃ out, head e filename = set_stdout e (stdout e ++ out).
Proof.
  unfold head. repeat case_match; try (by eexists).
  apply head_loop_appends.
Qed.

Lemma wc_appends e filename :
  ∃ out, wc e filename = set_stdout e (stdout e ++ out).
Proof. unfold wc. repeat case_match; by eexists. Qed.

Lemma cd_appends e path :
  ∃ d out, cd e path = set_stdout (set_current_dir e d) (stdout e ++ out).
Proof.
  unfold cd. repeat case_match.
  - exists [SLASH], []. by rewrite app_nil_r.
  - exists (resolve e path), []. by rewrite app_nil_r.
  - exists (current_dir e). eexists. unfold print.
    by rewrite print_end_eq, set_current_dir_id.
Qed.

Lemma files_set_uname ms i m owner :
  ms !! i = Some m → files (<[i := set_uname m owner]> ms) = files ms.
Proof.
  intros Hi. unfold files. rewrite list_fmap_insert. simpl.
  apply list_insert_id. by rewrite list_lookup_fmap, Hi.
Qed.

Lemma chown_appends e owner filename :
  ∃ ms out, chown e owner filename
            = set_stdout (set_members e ms) (stdout e ++ out)
    ∧ files ms = files (members e).
Proof.
  unfold chown.
  destruct (list_find _ _) as [[i m]|] eqn:Hfind.
  - apply list_find_Some in Hfind as (Hi & _).
    eexists _, _. split; [done|]. by apply files_set_uname.
  - exists (members e). eexists. split; [|done]. by destruct e.
Qed.

(** What a command may change, whatever its operands. *)
Lemma dispatch_frame e args :
  ∃ d ms out,
    state_of (dispatch e args)
    = set_stdout (set_members (set_current_dir e d) ms) (stdout e ++ out)
    ∧ files ms = files (members e)
    ∧ (hd_error args ≠ Some (lit "chown") → ms = members e)
    ∧ (hd_error args ≠ Some (lit "cd") → d = current_dir e).
Proof.
  assert (∀ e', (∃ out, e' = set_stdout e (stdout e ++ out)) →
    ∃ d ms out,
      e' = set_stdout (set_members (set_current_dir e d) ms) (stdout e ++ out)
      ∧ files ms = files (members e)
      ∧ (hd_error args ≠ Some (lit "chown") → ms = members e)
      ∧ (hd_error args ≠ Some (lit "cd") → d = current_dir e)) as Hout.
  { intros e' [out ->]. exists (current_dir e), (members e), out.
    by split_and!. }
  assert (∃ out, e = set_stdout e (stdout e ++ out)) as Hnone.
  { exists []. by rewrite app_nil_r, set_stdout_id. }
  unfold dispatch. destruct args as [|command operands]; [by apply Hout|].
  cbn [hd_error] in *.
  case_bool_decide as Hls; [apply Hout, ls_appends|].
  case_bool_decide as Hcd.
  { destruct operands as [|path ?]; [apply Hout; by eexists|].
    destruct (cd_appends e path) as (d & out & Heq). simpl. rewrite Heq.
    exists d, (members e), out. split_and!; try done. by subst. }
  case_bool_decide as Hexit; [by apply Hout|].
  case_bool_decide as Hhead.
  { destruct operands as [|filename ?]; apply Hout;
      [by eexists | apply head_appends]. }
  case_bool_decide as Hchown.
  { destruct operands as [|owner [|filename ?]]; try (apply Hout; by eexists).
    destruct (chown_appends e owner filename) as (ms & out & Heq & Hfiles).
    simpl. rewrite Heq. exists (current_dir e), ms, out.
    split_and!; try done. by subst. }
  case_bool_decide as Hwc.
  { destruct operands as [|filename ?]; apply Hout;
      [by eexists | apply wc_appends]. }
  apply Hout. by eexists.
Qed.

Lemma execute_command_frame e line :
  ∃ d ms out,
    state_of (execute_command e line)
    = set_stdout (set_members (set_current_dir
                    (writerow e [username e; line]) d) ms) (stdout e ++ out)
    ∧ files ms = files (members e)
    ∧ (hd_error (split (strip line)) ≠ Some (lit "chown") → ms = members e)
    ∧ (hd_error (split (strip line)) ≠ Some (lit "cd") → d = current_dir e).
Proof.
  exact (dispatch_frame (writerow e [username e; line]) (split (strip line))).
Qed.

(** ** Whole sessions *)

Lemma init_start user archive script_path script :
  init user archive script_path script
  = run_startup_script (start user archive) script_path script.
Proof. done. Qed.

(** A property kept by every command and by printing holds when the
    session ends, if the script is read. *)
Lemma session_invariant (P : Emulator → Prop) user archive script_path
    script inputs :
  (∀ e line, P e → P (state_of (execute_command e line))) →
  (∀ e s t, P e → P (print_end e s t)) →
  P (start user archive) →
  P (state_of (main user archive script_path (ScriptLines script) inputs)).
Proof.
  intros Hcmd Hprint Hstart.
  assert (∀ e inputs, P e → P (state_of (shell_loop e inputs))) as Hloop.
  { intros e ins. revert e. induction ins as [|l ins IH]; intros e He; simpl.
    - by apply Hprint.
    - specialize (Hcmd (print_end e (prompt e) []) l (Hprint _ _ _ He)).
      destruct (execute_command _ l); [by apply IH | done]. }
  unfold main. rewrite init_start. simpl.
  generalize (start user archive) Hstart. clear Hstart.
  induction script as [|l script IH]; intros e He; simpl.
  - by apply Hloop.
  - case_bool_decide; [by apply IH|].
    specialize (Hcmd e (strip l) He).
    destruct (execute_command e (strip l)); [by apply IH | done].
Qed.



Lemma shell_loop_until_exit e inputs :
  shell_loop e inputs = shell_loop e (until_exit inputs).
Proof.
  revert e. induction inputs as [|l inputs IH]; intros e; [done|].
  cbn [until_exit].
  destruct (execute_command_log (print_end e (prompt e) []) l)
    as (_ & _ & Hex).
  destruct (is_exit l); destruct Hex as [e' Heq]; cbn [shell_loop];
    rewrite Heq; [done | apply IH].
Qed.

(** X2: what is typed after the first [exit] is never read, and when a
    command of the startup script is [exit] nothing typed is read at
    all. *)
Theorem lines_after_exit_unread user archive script_path script inputs :
  main user archive script_path script inputs
  = main user archive script_path script (until_exit inputs)
  ∧ (∀ lines, script = ScriptLines lines →
       Exists (λ l, is_exit l = true) (script_commands lines) →
       main user archive script_path script inputs
       = main user archive script_path script []).
Proof.
  split.
  - unfold main. destruct (init _ _ _ _); [apply shell_loop_until_exit|done].
  - intros lines -> Hexit. unfold main. rewrite init_start. simpl.
    destruct (run_script_lines_log (start user archive) lines)
      as (_ & _ & Hex).
    rewrite bool_decide_eq_true_2 in Hex by done.
    by destruct Hex as [e' ->].
Qed.

(** X3: whatever the command line, the names, types, links and bytes
    of the members and the user name stay as they are and the output
    only grows; only [chown] changes a member and only [cd] changes the
    current directory. *)
Theorem command_frame e line :
  files (members (state_of (execute_command e line))) = files (members e)
  ∧ username (state_of (execute_command e line)) = username e
  ∧ stdout e `prefix_of` stdout (state_of (execute_command e line))
  ∧ (hd_error (split (strip line)) ≠ Some (lit "chown") →
     members (state_of (execute_command e line)) = members e)
  ∧ (hd_error (split (strip line)) ≠ Some (lit "cd") →
     current_dir (state_of (execute_command e line)) = current_dir e).
Proof.
  destruct (execute_command_frame e line) as (d & ms & out & -> & Hf & Hm & Hd).
  simpl. split_and!; [done | done | by exists out | done | done].
Qed.

Example command_frame_tests :
  members (state_of (execute_command test_emulator (lit "chown bob file1.txt")))
  ≠ members test_emulator
  ∧ current_dir (state_of (execute_command test_emulator (lit "cd dir1")))
    ≠ current_dir test_emulator.
Proof. split; vm_compute; discriminate. Qed.

(** X4: at the end of any session the archive holds the same names,
    types, links and bytes, in the same order, as when it was opened,
    and the user name is the one given: only owners can differ. *)
Theorem session_keeps_files user archive script_path script inputs :
  files (members (state_of (main user archive script_path script inputs)))
  = files archive
  ∧ username (state_of (main user archive script_path script inputs)) = user.
Proof.
  destruct script as [script| |]; [|done..].
  apply (session_invariant
           (λ e, files (members e) = files archive ∧ username e = user)).
  - intros e line [Hf Hu].
    destruct (execute_command_frame e line) as (d & ms & out & -> & Hf' & _).
    simpl. split; congruence.
  - by intros e s t [? ?].
  - done.
Qed.

(** ** The current directory of a session *)

Lemma dir_exists_names ms d :
  dir_exists ms d
  = existsb (λ n, startswith (normalize_member_name n) (cd_prefix d))
            (name <$> ms).
Proof.
  unfold dir_exists. induction ms as [|m ms IH]; [done|]. simpl.
  by rewrite IH.
Qed.

Lemma files_names ms : name <$> ms = (λ t, t.1.1.1) <$> files ms.
Proof. unfold files. by rewrite <-list_fmap_compose. Qed.

Lemma dir_exists_files ms ms' d :
  files ms = files ms' → dir_exists ms d = dir_exists ms' d.
Proof. intros H. by rewrite !dir_exists_names, !files_names, H. Qed.

Lemma root_good_dir ms : good_dir ms [SLASH].
Proof.
  split; [|by left]. exists 1%nat, []. by split_and!; [left | |].
Qed.

Lemma cd_good_dir e path :
  good_dir (members e) (current_dir e) →
  good_dir (members (cd e path)) (current_dir (cd e path)).
Proof.
  intros [Hcan Hdir]. unfold cd. case_bool_decide as Hroot.
  - apply root_good_dir.
  - destruct (existsb _ _) eqn:E; simpl; [|done].
    split; [|by right].
    by apply normpath_absolute, path_join_absolute.
Qed.

Lemma dispatch_good_dir e args :
  good_dir (members e) (current_dir e) →
  good_dir (members (state_of (dispatch e args)))
           (current_dir (state_of (dispatch e args))).
Proof.
  intros Hgood.
  destruct (decide (hd_error args = Some (lit "cd"))) as [Hcd|Hcd].
  - destruct args as [|command operands]; [done|].
    injection Hcd as ->. unfold dispatch.
    rewrite bool_decide_eq_false_2 by done.
    rewrite bool_decide_eq_true_2 by done.
    destruct operands; [done|]. by apply cd_good_dir.
  - destruct (dispatch_frame e args) as (d & ms & out & -> & Hf & _ & Hd).
    rewrite (Hd Hcd). simpl. destruct Hgood as [Hcan Hdir].
    split; [done|]. destruct Hdir as [?|Hdir]; [by left | right].
    by rewrite (dir_exists_files ms (members e)).
Qed.

(** X5: in every session the current directory is, in the end and so at
    every moment, an absolute normal path (no empty, [.] or [..]
    component) that is the root or a directory of the archive by the
    test of [cd]. *)
Theorem session_directory_is_valid user archive script_path script inputs :
  canonical
    (current_dir (state_of (main user archive script_path script inputs)))
  ∧ (current_dir (state_of (main user archive script_path script inputs))
     = [SLASH]
     ∨ dir_exists
         (members (state_of (main user archive script_path script inputs)))
         (current_dir (state_of (main user archive script_path script inputs)))
       = true).
Proof.
  destruct script as [script| |]; [|apply root_good_dir..].
  apply (session_invariant (λ e, good_dir (members e) (current_dir e))).
  - intros e line Hgood. by apply dispatch_good_dir.
  - done.
  - apply root_good_dir.
Qed.

(** ** The script and the prompt *)

Lemma ls_core e : core (ls e) = core e.
Proof. by destruct (ls_appends e) as [out ->]. Qed.

Lemma head_core e filename : core (head e filename) = core e.
Proof. by destruct (head_appends e filename) as [out ->]. Qed.

Lemma wc_core e filename : core (wc e filename) = core e.
Proof. by destruct (wc_appends e filename) as [out ->]. Qed.

Lemma cd_core e out path : core (cd (set_stdout e out) path) = core (cd e path).
Proof. unfold cd, resolve. simpl. by repeat case_match. Qed.

Lemma chown_core e out owner filename :
  core (chown (set_stdout e out) owner filename)
  = core (chown e owner filename).
Proof. unfold chown, lookup_name, resolve. simpl. by repeat case_match. Qed.

Lemma dispatch_core e out args :
  result (dispatch (set_stdout e out) args) = result (dispatch e args).
Proof.
  unfold dispatch. destruct args as [|command operands]; [done|].
  repeat case_bool_decide; repeat case_match; unfold result; simpl;
    by rewrite ?ls_core, ?head_core, ?wc_core, ?cd_core, ?chown_core.
Qed.

Lemma execute_command_core e1 e2 line :
  core e1 = core e2 →
  result (execute_command e1 line) = result (execute_command e2 line).
Proof.
  destruct e1 as [u d ms lg o1], e2 as [u2 d2 ms2 lg2 o2].
  intros [= <- <- <- <-]. symmetry.
  exact (dispatch_core (writerow (mkEmulator u d ms lg o1) [u; line]) o2
           (split (strip line))).
Qed.

Lemma result_cases o1 o2 :
  result o1 = result o2 →
  (∃ e1 e2, o1 = Running e1 ∧ o2 = Running e2 ∧ core e1 = core e2)
  ∨ (∃ st e1 e2, o1 = Exited st e1 ∧ o2 = Exited st e2 ∧ core e1 = core e2).
Proof.
  destruct o1, o2; unfold result; simpl; intros [= ? ? ? ?]; try done.
  - left. eexists _, _. split_and!; try done. unfold core. congruence.
  - subst. right. eexists _, _, _. split_and!; try done. unfold core. congruence.
Qed.

Lemma shell_loop_run_lines e1 e2 inputs :
  core e1 = core e2 →
  result (shell_loop e1 inputs) = result (run_lines e2 inputs).
Proof.
  revert e1 e2. induction inputs as [|l inputs IH]; intros e1 e2 Hcore.
  - unfold result. simpl. by rewrite <-Hcore.
  - cbn [shell_loop run_lines].
    destruct (result_cases _ _
                (execute_command_core (print_end e1 (prompt e1) []) e2 l Hcore))
      as [(e1' & e2' & -> & -> & Hc)|(st & e1' & e2' & -> & -> & Hc)].
    + by apply IH.
    + unfold result. simpl. by rewrite Hc.
Qed.

(** X6: a session ends as if the non-blank lines of the startup script,
    stripped, had been typed before the lines typed, and as if only the
    lines up to the first [exit] had been given: the exit status, the
    current directory, the members and the log are those of giving
    these lines to [execute_command] one after the other.  The prompts
    printed in between play no part. *)
Theorem session_is_its_command_lines user archive script_path script inputs :
  result (main user archive script_path (ScriptLines script) inputs)
  = result (run_lines (start user archive) (script_commands script ++ inputs))
  ∧ result (main user archive script_path (ScriptLines script) inputs)
    = result (run_lines (start user archive) (dispatched script inputs)).
Proof.
  assert (∀ e1 e2 lines, core e1 = core e2 →
    result (match run_script_lines e1 lines with
            | Running e => shell_loop e inputs
            | Exited st e => Exited st e
            end)
    = result (run_lines e2 (script_commands lines ++ inputs))) as Hscript.
  { intros e1 e2 lines. revert e1 e2. unfold script_commands.
    induction lines as [|l lines IH]; intros e1 e2 Hcore.
    - by apply shell_loop_run_lines.
    - cbn [run_script_lines fmap list_fmap].
      destruct (decide (strip l = [])) as [Hblank|Hblank].
      + rewrite bool_decide_eq_true_2 by done.
        rewrite filter_cons_False by (intros Hne; by apply Hne). by apply IH.
      + rewrite bool_decide_eq_false_2 by done.
        rewrite filter_cons_True by done. cbn [app run_lines].
        destruct (result_cases _ _
                    (execute_command_core e1 e2 (strip l) Hcore))
          as [(e1' & e2' & -> & -> & Hc)|(st & e1' & e2' & -> & -> & Hc)].
        * by apply IH.
        * unfold result. simpl. by rewrite Hc. }
  assert (∀ e lines, run_lines e lines = run_lines e (until_exit lines))
    as Huntil.
  { intros e lines. revert e. induction lines as [|l lines IH]; intros e;
      [done|]. cbn [until_exit].
    destruct (execute_command_log e l) as (_ & _ & Hex).
    destruct (is_exit l); destruct Hex as [e' Heq]; cbn [run_lines];
      rewrite Heq; [done | apply IH]. }
  assert (result (main user archive script_path (ScriptLines script) inputs)
          = result (run_lines (start user archive)
                      (script_commands script ++ inputs))) as Hmain.
  { unfold main. rewrite init_start. by apply Hscript. }
  split; [done|]. unfold dispatched. by rewrite <-Huntil.
Qed.

(** ** Newlines survive decoding *)

Lemma count_some_newline_out b out :
  Forall (out_ok (Byte.to_N b)) out → b ≠ x0a →
  filter (λ o, o = Some LF) out = [].
Proof.
  intros Hout Hb. induction Hout as [|o out Ho _ IH]; [done|].
  rewrite filter_cons_False; [done|]. intros ->.
  destruct (Ho LF eq_refl) as [_ Heq]. apply Hb.
  apply (inj Byte.to_N). rewrite <-Heq; [done|]. unfold LF. lia.
Qed.

Lemma filter_absent {A} (P : A → Prop) `{∀ x, Decision (P x)} (l : list A) :
  Forall (λ x, ¬ P x) l → filter P l = [].
Proof.
  induction 1 as [|x l Hx _ IH]; [done|]. by rewrite filter_cons_False.
Qed.

Lemma utf8_scan_newlines st bs :
  st_ok st →
  length (filter (λ o, o = Some LF) (utf8_scan st bs)) = newline_bytes bs.
Proof.
  revert st. unfold newline_bytes.
  induction bs as [|b bs IH]; intros st Hst.
  - by destruct st.
  - cbn [utf8_scan].
    destruct (decode_byte st (Byte.to_N b)) as [out st'] eqn:Hstep.
    rewrite filter_app, length_app.
    destruct (decide (b = x0a)) as [->|Hb].
    + change (Byte.to_N x0a) with 10 in Hstep.
      apply decode_byte_newline in Hstep as (-> & pre & -> & Hpre); [|done].
      rewrite filter_cons_True by done. rewrite (IH Start I).
      rewrite filter_app, length_app. rewrite (filter_absent _ pre).
      * by rewrite filter_cons_True by done.
      * apply Forall_forall. by intros o Ho ->.
    + apply decode_byte_ok in Hstep as [Hst' Hout]; [|done].
      rewrite filter_cons_False by done.
      rewrite (count_some_newline_out b out Hout Hb). by rewrite (IH st' Hst').
Qed.

Lemma count_decode_replace bs :
  count LF (decode_replace bs) = newline_bytes bs.
Proof.
  rewrite <-(utf8_scan_newlines Start bs I). unfold count, decode_replace.
  induction (utf8_scan Start bs) as [|o l IH]; [done|].
  rewrite fmap_cons. destruct o as [c|]; simpl.
  - destruct (decide (c = LF)) as [->|Hc].
    + rewrite !filter_cons_True by done. simpl. by rewrite IH.
    + rewrite !filter_cons_False by congruence. done.
  - rewrite !filter_cons_False by done. done.
Qed.

(** X7: the first number [wc] prints for a file is the number of its
    newline bytes, whether the file is valid UTF-8 or not: replacing
    ill-formed sequences neither adds nor removes a newline. *)
Theorem wc_counts_newline_bytes e filename member f :
  getmember (members e) (lookup_name e filename) = Some member →
  extractfile (members e) member = FileObject f →
  count LF (decode_replace f) = newline_bytes f
  ∧ ∃ encoded,
      encode (decode_replace f) = Some encoded
      ∧ wc e filename
        = print e (str_of_nat (newline_bytes f) ++ lit " "
                   ++ str_of_nat (length (split (decode_replace f)))
                   ++ lit " " ++ str_of_nat (length encoded) ++ lit " "
                   ++ filename).
Proof.
  intros Hm Hf. split; [apply count_decode_replace|].
  destruct (encode_decode_replace f) as [encoded Henc].
  exists encoded. split; [done|]. unfold wc.
  by rewrite Hm, Hf, Henc, count_decode_replace.
Qed.

Lemma wc_counts_newline_bytes_witness :
  count LF (decode_replace [xff; x0a; xfe; x0a]) = 2%nat
  ∧ ∃ encoded,
      encode (decode_replace [xff; x0a; xfe; x0a]) = Some encoded
      ∧ wc (set_members test_emulator
              [test_file "binaryfile" [xff; x0a; xfe; x0a]])
           (lit "binaryfile")
        = print (set_members test_emulator
                   [test_file "binaryfile" [xff; x0a; xfe; x0a]])
            (str_of_nat 2 ++ lit " "
             ++ str_of_nat (length (split (decode_replace
                                             [xff; x0a; xfe; x0a])))
             ++ lit " " ++ str_of_nat (length encoded) ++ lit " "
             ++ lit "binaryfile").
Proof.
  apply (wc_counts_newline_bytes
           (set_members test_emulator
              [test_file "binaryfile" [xff; x0a; xfe; x0a]])
           (lit "binaryfile")
           (0%nat, test_file "binaryfile" [xff; x0a; xfe; x0a])); reflexivity.
Defined.

(** ** Decoding, then encoding again *)

Lemma byte_of_to_N b : byte_of_N (Byte.to_N b) = b.
Proof. unfold byte_of_N. by rewrite Byte.of_to_N. Qed.

Lemma byte_of_N_eq n b : n = Byte.to_N b → byte_of_N n = b.
Proof. intros ->. apply byte_of_to_N. Qed.

Lemma to_N_lt b : Byte.to_N b < 256.
Proof. pose proof (Byte.to_N_bounded b). lia. Qed.

Lemma encode_char_1 b :
  Byte.to_N b < 0x80 → encode_char (Byte.to_N b) = Some [b].
Proof.
  intros Hb. unfold encode_char. destruct (N.ltb_spec (Byte.to_N b) 0x80); [|lia].
  by rewrite byte_of_to_N.
Qed.

(** The bits of a character as the encoder cuts them: [c] is [q]
    sixty-fours and [r] more. *)
Lemma cut_64 c q r :
  c = q * 64 + r → r < 64 → c / 64 = q ∧ c mod 64 = r.
Proof.
  intros -> Hr. split; symmetry.
  - apply (N.div_unique _ 64 q r); lia.
  - apply (N.mod_unique _ 64 q r); lia.
Qed.

Lemma encode_char_2 b0 b1 :
  0xC2 ≤ Byte.to_N b0 < 0xE0 → 0x80 ≤ Byte.to_N b1 ≤ 0xBF →
  encode_char ((Byte.to_N b0 - 0xC0) * 64 + (Byte.to_N b1 - 0x80))
  = Some [b0; b1].
Proof.
  intros H0 H1. unfold encode_char.
  set (c := (Byte.to_N b0 - 0xC0) * 64 + (Byte.to_N b1 - 0x80)).
  assert (0x80 ≤ c < 0x800) as Hc by (unfold c; lia).
  destruct (cut_64 c (Byte.to_N b0 - 0xC0) (Byte.to_N b1 - 0x80))
    as [Hq Hr]; [done | lia |].
  destruct (N.ltb_spec c 0x80); [lia|].
  destruct (N.ltb_spec c 0x800); [|lia].
  rewrite Hq, Hr. do 2 f_equal; [|f_equal]; apply byte_of_N_eq; lia.
Qed.

Lemma encode_char_3 b0 b1 b2 :
  0xE0 ≤ Byte.to_N b0 < 0xF0 →
  (if Byte.to_N b0 =? 0xE0 then 0xA0 else 0x80) ≤ Byte.to_N b1
  ≤ (if Byte.to_N b0 =? 0xED then 0x9F else 0xBF) →
  0x80 ≤ Byte.to_N b2 ≤ 0xBF →
  encode_char (((Byte.to_N b0 - 0xE0) * 64 + (Byte.to_N b1 - 0x80)) * 64
               + (Byte.to_N b2 - 0x80))
  = Some [b0; b1; b2].
Proof.
  intros H0 H1 H2. unfold encode_char.
  set (c1 := (Byte.to_N b0 - 0xE0) * 64 + (Byte.to_N b1 - 0x80)).
  set (c := c1 * 64 + (Byte.to_N b2 - 0x80)).
  assert (0x80 ≤ Byte.to_N b1 ≤ 0xBF) as H1'.
  { destruct (N.eqb_spec (Byte.to_N b0) 0xE0), (N.eqb_spec (Byte.to_N b0) 0xED);
      lia. }
  assert (0x800 ≤ c < 0x10000 ∧ ¬ (0xD800 ≤ c < 0xE000)) as [Hc Hs].
  { unfold c, c1.
    destruct (N.eqb_spec (Byte.to_N b0) 0xE0), (N.eqb_spec (Byte.to_N b0) 0xED);
      lia. }
  destruct (cut_64 c c1 (Byte.to_N b2 - 0x80)) as [Hq Hr]; [done | lia |].
  destruct (cut_64 c1 (Byte.to_N b0 - 0xE0) (Byte.to_N b1 - 0x80))
    as [Hq1 Hr1]; [done | lia |].
  assert (c / 4096 = Byte.to_N b0 - 0xE0) as Hq2.
  { change 4096 with (64 * 64). by rewrite <-N.Div0.div_div, Hq, Hq1. }
  destruct (N.ltb_spec c 0x80); [lia|].
  destruct (N.ltb_spec c 0x800); [lia|].
  destruct (N.ltb_spec c 0x10000); [|lia].
  assert ((0xD800 <=? c) && (c <? 0xE000) = false) as ->.
  { destruct (N.leb_spec 0xD800 c), (N.ltb_spec c 0xE000); simpl; try done.
    lia. }
  rewrite Hq, Hr, Hq2, Hr1.
  do 2 f_equal; [|f_equal; [|f_equal]]; apply byte_of_N_eq; lia.
Qed.

Lemma encode_char_4 b0 b1 b2 b3 :
  0xF0 ≤ Byte.to_N b0 < 0xF5 →
  (if Byte.to_N b0 =? 0xF0 then 0x90 else 0x80) ≤ Byte.to_N b1
  ≤ (if Byte.to_N b0 =? 0xF4 then 0x8F else 0xBF) →
  0x80 ≤ Byte.to_N b2 ≤ 0xBF → 0x80 ≤ Byte.to_N b3 ≤ 0xBF →
  encode_char ((((Byte.to_N b0 - 0xF0) * 64 + (Byte.to_N b1 - 0x80)) * 64
                + (Byte.to_N b2 - 0x80)) * 64 + (Byte.to_N b3 - 0x80))
  = Some [b0; b1; b2; b3].
Proof.
  intros H0 H1 H2 H3. unfold encode_char.
  set (c1 := (Byte.to_N b0 - 0xF0) * 64 + (Byte.to_N b1 - 0x80)).
  set (c2 := c1 * 64 + (Byte.to_N b2 - 0x80)).
  set (c := c2 * 64 + (Byte.to_N b3 - 0x80)).
  assert (0x80 ≤ Byte.to_N b1 ≤ 0xBF) as H1'.
  { destruct (N.eqb_spec (Byte.to_N b0) 0xF0), (N.eqb_spec (Byte.to_N b0) 0xF4);
      lia. }
  assert (0x10000 ≤ c < 0x110000) as Hc.
  { unfold c, c2, c1.
    destruct (N.eqb_spec (Byte.to_N b0) 0xF0), (N.eqb_spec (Byte.to_N b0) 0xF4);
      lia. }
  destruct (cut_64 c c2 (Byte.to_N b3 - 0x80)) as [Hq Hr]; [done | lia |].
  destruct (cut_64 c2 c1 (Byte.to_N b2 - 0x80)) as [Hq2 Hr2]; [done | lia |].
  destruct (cut_64 c1 (Byte.to_N b0 - 0xF0) (Byte.to_N b1 - 0x80))
    as [Hq1 Hr1]; [done | lia |].
  assert (c / 4096 = c1) as Hd2.
  { change 4096 with (64 * 64). by rewrite <-N.Div0.div_div, Hq, Hq2. }
  assert (c / 262144 = Byte.to_N b0 - 0xF0) as Hd3.
  { change 262144 with (4096 * 64). by rewrite <-N.Div0.div_div, Hd2, Hq1. }
  destruct (N.ltb_spec c 0x80); [lia|].
  destruct (N.ltb_spec c 0x800); [lia|].
  destruct (N.ltb_spec c 0x10000); [lia|].
  destruct (N.ltb_spec c 0x110000); [|lia].
  rewrite Hq, Hr, Hd2, Hd3, Hr1, Hr2.
  do 2 f_equal; [|f_equal; [|f_equal; [|f_equal]]]; apply byte_of_N_eq; lia.
Qed.

Lemma start_byte_pending b out st :
  start_byte (Byte.to_N b) = (out, st) → Forall is_Some out →
  (out = [Some (Byte.to_N b)] ∧ st = Start
   ∧ encode_char (Byte.to_N b) = Some [b])
  ∨ (out = [] ∧ pending st [b]).
Proof.
  unfold start_byte.
  destruct (N.ltb_spec (Byte.to_N b) 0x80).
  { intros [= <- <-] _. left. split_and!; try done. by apply encode_char_1. }
  destruct (N.ltb_spec (Byte.to_N b) 0xC2).
  { intros [= <- <-] Hout. apply Forall_cons in Hout as [[? [=]] _]. }
  destruct (N.ltb_spec (Byte.to_N b) 0xE0).
  { intros [= <- <-] _. right. split; [done|]. simpl.
    intros b1 Hb1. apply encode_char_2; lia. }
  destruct (N.ltb_spec (Byte.to_N b) 0xF0).
  { intros [= <- <-] _. right. split; [done|]. simpl.
    intros b1 Hb1 b2 Hb2. by apply encode_char_3. }
  destruct (N.ltb_spec (Byte.to_N b) 0xF5).
  { intros [= <- <-] _. right. split; [done|]. simpl.
    intros b1 Hb1 b2 Hb2 b3 Hb3. by apply encode_char_4. }
  intros [= <- <-] Hout. apply Forall_cons in Hout as [[? [=]] _].
Qed.

Lemma decode_byte_pending st pend b out st' :
  pending st pend →
  decode_byte st (Byte.to_N b) = (out, st') → Forall is_Some out →
  (∃ c, out = [Some c] ∧ st' = Start ∧ encode_char c = Some (pend ++ [b]))
  ∨ (out = [] ∧ pending st' (pend ++ [b])).
Proof.
  destruct st as [|k cp lo hi]; simpl.
  - intros -> Hstep Hout.
    destruct (start_byte_pending b out st' Hstep Hout)
      as [(-> & -> & Henc)|[-> Hp]]; [left; by eexists | by right].
  - intros Hp.
    destruct (N.leb_spec lo (Byte.to_N b)), (N.leb_spec (Byte.to_N b) hi);
      simpl.
    2-4: destruct (start_byte (Byte.to_N b)); intros [= <- <-] Hout;
         by apply Forall_cons in Hout as [[? [=]] _].
    destruct k as [|[|k]]; [done | |].
    + intros [= <- <-] _. left. eexists. split_and!; try done.
      exact (Hp b (conj H H0)).
    + intros [= <- <-] _. right. split; [done|].
      exact (Hp b (conj H H0)).
Qed.

Lemma encode_cons c (s : str) x y :
  encode_char c = Some x → encode s = Some y →
  encode (c :: s) = Some (x ++ y).
Proof.
  unfold encode. intros Hc Hs. simpl. rewrite Hc. simpl.
  destruct (mapM encode_char s) as [l|]; [|done]. simpl in *. congruence.
Qed.

Lemma utf8_scan_encode st pend bs (s : str) :
  pending st pend → mapM id (utf8_scan st bs) = Some s →
  encode s = Some (pend ++ bs).
Proof.
  revert st pend s. induction bs as [|b bs IH]; intros st pend s Hp.
  - destruct st; simpl in *; [|done]. intros [= <-]. by subst.
  - cbn [utf8_scan].
    destruct (decode_byte st (Byte.to_N b)) as [out st'] eqn:Hstep.
    intros Hs. apply mapM_Some in Hs.
    apply Forall2_app_inv_l in Hs as (s1 & s2 & H1 & H2 & ->).
    assert (Forall is_Some out) as Hout.
    { apply Forall_forall. intros o Ho.
      apply list_elem_of_lookup in Ho as [i Hi].
      destruct (Forall2_lookup_l _ _ _ _ _ H1 Hi) as (c & _ & Hc).
      simpl in Hc. by subst. }
    apply mapM_Some in H2.
    destruct (decode_byte_pending st pend b out st' Hp Hstep Hout)
      as [(c & -> & -> & Henc)|[-> Hp']].
    + apply Forall2_cons_inv_l in H1 as (c' & s1' & [= <-] & H1 & ->).
      apply Forall2_nil_inv_l in H1 as ->.
      cbn [app].
      rewrite (encode_cons c s2 (pend ++ [b]) bs Henc (IH Start [] s2 eq_refl H2)).
      by rewrite <-(assoc_L (++)).
    + apply Forall2_nil_inv_l in H1 as ->. simpl.
      rewrite (IH st' (pend ++ [b]) s2 Hp' H2).
      by rewrite <-(assoc_L (++)).
Qed.

Lemma decode_encode bs (s : str) : decode bs = Some s → encode s = Some bs.
Proof. intros H. by apply (utf8_scan_encode Start [] bs s). Qed.

Lemma decode_decode_replace bs (s : str) :
  decode bs = Some s → decode_replace bs = s.
Proof.
  unfold decode, decode_replace. intros H%mapM_Some.
  induction H as [|o c l s Ho _ IH]; [done|].
  simpl in Ho. subst o. rewrite fmap_cons. by rewrite IH.
Qed.

(** X8: for a file that is valid UTF-8 the text encodes back to the very
    bytes of the file, so the numbers [wc] prints are the number of
    newline bytes, the number of words of the decoded text and the size
    of the file. *)
Theorem wc_valid_file_size e filename member f (text : str) :
  getmember (members e) (lookup_name e filename) = Some member →
  extractfile (members e) member = FileObject f →
  decode f = Some text →
  encode text = Some f
  ∧ wc e filename
    = print e (str_of_nat (newline_bytes f) ++ lit " "
               ++ str_of_nat (length (split text)) ++ lit " "
               ++ str_of_nat (length f) ++ lit " " ++ filename).
Proof.
  intros Hm Hf Hdec. pose proof (decode_encode f text Hdec) as Henc.
  split; [done|]. unfold wc.
  rewrite Hm, Hf, (decode_decode_replace f text Hdec), Henc.
  by rewrite <-(decode_decode_replace f text Hdec), count_decode_replace.
Qed.

Lemma wc_valid_file_size_witness :
  encode (lit "Another file in dir2." ++ [LF])
  = Some (utf8 "Another file in dir2." ++ [x0a])
  ∧ wc (cd test_emulator (lit "dir2")) (lit "file4.txt")
    = print (cd test_emulator (lit "dir2"))
        (str_of_nat (newline_bytes (utf8 "Another file in dir2." ++ [x0a]))
         ++ lit " "
         ++ str_of_nat (length (split (lit "Another file in dir2." ++ [LF])))
         ++ lit " "
         ++ str_of_nat (length (utf8 "Another file in dir2." ++ [x0a]))
         ++ lit " " ++ lit "file4.txt").
Proof.
  apply (wc_valid_file_size (cd test_emulator (lit "dir2")) (lit "file4.txt")
           (4%nat, test_file "dir2/file4.txt" (utf8 "Another file in dir2." ++ [x0a])));
    reflexivity.
Defined.

(** ** Files that cannot be read *)

Lemma lookup_name_no_trailing_slash e filename :
  rstrip_by is_slash (lookup_name e filename) = lookup_name e filename.
Proof.
  rewrite lookup_name_unchanged. unfold resolve.
  destruct (normpath_shape (path_join (current_dir e) filename))
    as [->|(k & comps & Hall & ->)]; [done|].
  destruct (strip_slashes_join k comps Hall) as [_ ->].
  destruct (decide (comps = [])) as [->|Hne]; [done|].
  destruct (join_segments_last comps Hne Hall) as (c & Hlast & Hc).
  apply (rstrip_by_last _ _ c Hlast). unfold is_slash. by apply N.eqb_neq.
Qed.

Lemma getmember_None ms n :
  rstrip_by is_slash n = n →
  Forall (λ m, name m ≠ n) ms → getmember ms n = None.
Proof.
  intros Hn Hall. unfold getmember, _getmember. rewrite Hn.
  rewrite (proj2 (list_find_None _ _)); [done|].
  by apply Forall_reverse.
Qed.

Lemma getmember_last_stored ms n member :
  rstrip_by is_slash n = n →
  last_stored ms n member → getmember ms n = Some member.
Proof.
  destruct member as [i m]. intros Hn (Hi & Hname & Hlater). simpl in *.
  unfold getmember, _getmember. rewrite Hn.
  assert (i < length ms)%nat as Hlt by (by eapply lookup_lt_Some).
  rewrite (proj2 (list_find_Some _ (reverse ms) (length ms - S i) m)).
  { simpl. do 2 f_equal. lia. }
  split_and!.
  - rewrite reverse_lookup by lia. rewrite <-Hi. f_equal. lia.
  - done.
  - intros j m' Hj Hlt'.
    assert (j < length ms)%nat as Hj'.
    { apply lookup_lt_Some in Hj. by rewrite length_reverse in Hj. }
    rewrite reverse_lookup in Hj by done.
    apply (Hlater _ _ Hj). lia.
Qed.

(** X9: when no member is stored under the name looked up, [head] and
    [wc] each print their own message that there is no such file or
    directory, and nothing else happens. *)
Theorem head_wc_missing_file e filename :
  Forall (λ m, name m ≠ lookup_name e filename) (members e) →
  head e filename
  = print e (lit "head: cannot open '" ++ filename
             ++ lit "' for reading: No such file or directory")
  ∧ wc e filename
    = print e (lit "wc: " ++ filename ++ lit ": No such file or directory").
Proof.
  intros Hall. unfold head, wc.
  by rewrite (getmember_None _ _ (lookup_name_no_trailing_slash e filename)
                Hall).
Qed.

Lemma head_wc_missing_file_witness :
  head test_emulator (lit "dir1/../nonexistent.txt")
  = print test_emulator
      (lit "head: cannot open '" ++ lit "dir1/../nonexistent.txt"
       ++ lit "' for reading: No such file or directory")
  ∧ wc test_emulator (lit "dir1/../nonexistent.txt")
    = print test_emulator
        (lit "wc: " ++ lit "dir1/../nonexistent.txt"
         ++ lit ": No such file or directory").
Proof.
  apply (head_wc_missing_file test_emulator (lit "dir1/../nonexistent.txt")).
  apply (bool_decide_unpack _). vm_compute. exact I.
Defined.

(** What [extractfile] gives for a member depends on its type alone
    unless the member is a link. *)
Lemma extractfile_file ms (member : member_ref) :
  isreg member.2 || negb (type_in (type member.2) SUPPORTED_TYPES) = true →
  extractfile ms member = FileObject (data member.2).
Proof.
  intros H. unfold extractfile, RECURSION_LIMIT.
  cbn [extractfile_within]. by rewrite H.
Qed.

Lemma extractfile_no_data ms (member : member_ref) :
  type_in (type member.2) NODATA_TYPES = true →
  extractfile ms member = NoFileObject.
Proof.
  intros H. unfold extractfile, RECURSION_LIMIT.
  cbn [extractfile_within]. unfold isreg, islnk, issym.
  destruct (type member.2); vm_compute in H; by try discriminate H.
Qed.

(** X10: when the last member stored under the name looked up is a
    directory, a FIFO or a device, which hold no data, [head] says that
    it is not a regular file, while [wc] reports that there is no such
    file or directory; members stored earlier under the same name are
    not consulted. *)
Theorem head_wc_not_a_regular_file e filename member :
  last_stored (members e) (lookup_name e filename) member →
  type_in (type member.2) NODATA_TYPES = true →
  head e filename
  = print e (lit "head: cannot open '" ++ filename
             ++ lit "' for reading: Not a regular file")
  ∧ wc e filename
    = print e (lit "wc: " ++ filename ++ lit ": No such file or directory").
Proof.
  intros Hlast Htype. unfold head, wc.
  by rewrite (getmember_last_stored _ _ _
                (lookup_name_no_trailing_slash e filename) Hlast),
             (extractfile_no_data _ _ Htype).
Qed.

Lemma head_wc_not_a_regular_file_witness :
  head dir_emulator (lit "docs")
  = print dir_emulator (lit "head: cannot open '" ++ lit "docs"
                        ++ lit "' for reading: Not a regular file")
  ∧ wc dir_emulator (lit "docs")
    = print dir_emulator
        (lit "wc: " ++ lit "docs" ++ lit ": No such file or directory").
Proof.
  apply (head_wc_not_a_regular_file dir_emulator (lit "docs")
           (0%nat, {| name := lit "docs"; uname := []; type := DIRTYPE;
                      linkname := []; data := [] |}));
    [|reflexivity].
  split_and!; [reflexivity | reflexivity |].
  intros [|[|[|j]]] m' Hj Hlt; [simpl in Hlt; lia | | |discriminate];
    injection Hj as <-; vm_compute; discriminate.
Defined.

(** ** Owners are never read *)

Lemma list_find_related {A} (R : A → A → Prop) (P : A → Prop)
    `{∀ x, Decision (P x)} (l l' : list A) :
  Forall2 R l l' → (∀ x y, R x y → (P x ↔ P y)) →
  match list_find P l, list_find P l' with
  | Some (i, x), Some (j, y) => i = j ∧ R x y
  | None, None => True
  | _, _ => False
  end.
Proof.
  intros Hall HP. induction Hall as [|x y l l' Hxy _ IH]; [done|].
  cbn [list_find]. destruct (decide (P x)) as [Hx|Hx].
  - rewrite decide_True by (by apply (HP x y)). done.
  - rewrite decide_False by (by rewrite <-(HP x y)).
    destruct (list_find P l) as [[i a]|], (list_find P l') as [[j b]|];
      simpl; try done. destruct IH as [-> ?]. done.
Qed.

Lemma ls_eq e :
  ls e = set_stdout e (stdout e
           ++ concat ((λ n, n ++ lit "  ") <$> ls_names e) ++ [LF]).
Proof.
  unfold ls, ls_names. rewrite foldl_print_end. unfold print.
  rewrite print_end_eq, set_stdout_twice. simpl.
  by rewrite <-(assoc_L (++)).
Qed.

Lemma ls_fold_stripped_names prefix contents ms ms' :
  Forall2 (λ m m', normalize_member_name (name m)
                   = normalize_member_name (name m')) ms ms' →
  foldl (ls_add prefix) contents ms = foldl (ls_add prefix) contents ms'.
Proof.
  intros Hall. revert contents.
  induction Hall as [|m m' ms ms' Hm _ IH]; intros contents; [done|].
  simpl. unfold ls_add at 2 4. rewrite Hm. apply IH.
Qed.

Lemma existsb_stripped_names prefix ms ms' :
  Forall2 (λ m m', normalize_member_name (name m)
                   = normalize_member_name (name m')) ms ms' →
  existsb (λ m, startswith (normalize_member_name (name m)) prefix) ms
  = existsb (λ m, startswith (normalize_member_name (name m)) prefix) ms'.
Proof.
  induction 1 as [|m m' ms ms' Hm _ IH]; [done|]. simpl. by rewrite Hm, IH.
Qed.

Lemma same_file_stripped ms ms' :
  Forall2 same_file ms ms' →
  Forall2 (λ m m', normalize_member_name (name m)
                   = normalize_member_name (name m')) ms ms'.
Proof.
  intros H. eapply Forall2_impl; [done|]. by intros m m' (-> & _).
Qed.

Lemma same_but_owners_print e1 e2 s :
  same_but_owners e1 e2 → same_but_owners (print e1 s) (print e2 s).
Proof. intros (? & ? & ? & ? & Hout). split_and!; simpl; congruence. Qed.

Lemma ls_same_but_owners e1 e2 :
  same_but_owners e1 e2 → same_but_owners (ls e1) (ls e2).
Proof.
  intros (Hu & Hd & Hm & Hl & Hout). rewrite !ls_eq.
  assert (ls_names e1 = ls_names e2) as ->.
  { unfold ls_names, ls_contents. rewrite Hd.
    by rewrite (ls_fold_stripped_names _ _ _ _ (same_file_stripped _ _ Hm)). }
  split_and!; simpl; congruence.
Qed.

Lemma cd_same_but_owners e1 e2 path :
  same_but_owners e1 e2 → same_but_owners (cd e1 path) (cd e2 path).
Proof.
  intros (Hu & Hd & Hm & Hl & Hout). unfold cd, resolve. rewrite Hd.
  rewrite (existsb_stripped_names _ _ _ (same_file_stripped _ _ Hm)).
  repeat case_match; split_and!; simpl; congruence.
Qed.

Lemma lookup_same_file ms ms' n limit normalize :
  Forall2 same_file ms ms' →
  match _getmember ms n limit normalize, _getmember ms' n limit normalize with
  | Some member, Some member' => same_member member member'
  | None, None => True
  | _, _ => False
  end.
Proof.
  intros Hall. unfold _getmember.
  set (l := match limit with Some i => take i ms | None => ms end).
  set (l' := match limit with Some i => take i ms' | None => ms' end).
  assert (Forall2 same_file l l') as Hl.
  { unfold l, l'. destruct limit; [by apply Forall2_take | done]. }
  assert (Forall2 same_file (reverse l) (reverse l')) as Hrev
    by (by apply Forall2_reverse).
  set (key := if normalize then normpath n else n).
  assert (∀ x y, same_file x y →
            ((if normalize then normpath (name x) else name x) = key
             ↔ (if normalize then normpath (name y) else name y) = key))
    as HP by (by intros x y (-> & _)).
  pose proof (list_find_related same_file _ _ _ Hrev HP) as H.
  rewrite (Forall2_length _ _ _ Hl).
  destruct (list_find _ (reverse l)) as [[i m]|],
           (list_find _ (reverse l')) as [[j m']|]; simpl; try done.
  destruct H as [-> ?]. by split.
Qed.

Lemma getmember_same_file ms ms' n :
  Forall2 same_file ms ms' →
  match getmember ms n, getmember ms' n with
  | Some member, Some member' => same_member member member'
  | None, None => True
  | _, _ => False
  end.
Proof. apply lookup_same_file. Qed.

Lemma link_target_same_file ms ms' member member' :
  Forall2 same_file ms ms' → same_member member member' →
  match _find_link_target ms member, _find_link_target ms' member' with
  | Some target, Some target' => same_member target target'
  | None, None => True
  | _, _ => False
  end.
Proof.
  intros Hall [Hi (Hname & Htype & Hlink & _)]. unfold _find_link_target, issym.
  rewrite Hi, Hname, Htype, Hlink.
  destruct (Byte.eqb _ _); by apply lookup_same_file.
Qed.

(** The file object of a member does not depend on any owner. *)
Lemma extractfile_same_file ms ms' member member' :
  Forall2 same_file ms ms' → same_member member member' →
  extractfile ms member = extractfile ms' member'.
Proof.
  intros Hall. unfold extractfile. generalize RECURSION_LIMIT as depth.
  intros depth. revert member member'.
  induction depth as [|depth IH]; intros member member' Hsame;
    pose proof Hsame as [_ (_ & Htype & _ & Hdata)];
    cbn [extractfile_within]; unfold isreg, islnk, issym;
    rewrite Htype, Hdata; [done|].
  pose proof (link_target_same_file _ _ _ _ Hall Hsame) as H.
  destruct (_find_link_target ms member) as [target|],
           (_find_link_target ms' member') as [target'|]; try done.
  by rewrite (IH target target' H).
Qed.

Lemma head_loop_same_but_owners n filename f e1 e2 :
  same_but_owners e1 e2 →
  same_but_owners (head_loop n filename f e1) (head_loop n filename f e2).
Proof.
  revert f e1 e2. induction n as [|n IH]; intros f e1 e2 Hsame; [done|].
  simpl. destruct (readline f) as [line f']. destruct line; [done|].
  destruct (decode _); [|by apply same_but_owners_print].
  by apply IH, same_but_owners_print.
Qed.

Lemma head_same_but_owners e1 e2 filename :
  same_but_owners e1 e2 →
  same_but_owners (head e1 filename) (head e2 filename).
Proof.
  intros Hsame. pose proof Hsame as (Hu & Hd & Hm & Hl & Hout).
  unfold head, lookup_name, resolve. rewrite Hd.
  pose proof (getmember_same_file _ _
    (normalize_member_name
       (lstrip_by is_slash (normpath (path_join (current_dir e2) filename))))
    Hm) as H.
  destruct (getmember (members e1) _) as [m|],
           (getmember (members e2) _) as [m'|]; try done.
  - rewrite (extractfile_same_file _ _ _ _ Hm H).
    destruct (extractfile _ m'); try by apply same_but_owners_print.
    by apply head_loop_same_but_owners.
  - by apply same_but_owners_print.
Qed.

Lemma wc_same_but_owners e1 e2 filename :
  same_but_owners e1 e2 →
  same_but_owners (wc e1 filename) (wc e2 filename).
Proof.
  intros Hsame. pose proof Hsame as (Hu & Hd & Hm & Hl & Hout).
  unfold wc, lookup_name, resolve. rewrite Hd.
  pose proof (getmember_same_file _ _
    (normalize_member_name
       (lstrip_by is_slash (normpath (path_join (current_dir e2) filename))))
    Hm) as H.
  destruct (getmember (members e1) _) as [m|],
           (getmember (members e2) _) as [m'|]; try done.
  - rewrite (extractfile_same_file _ _ _ _ Hm H).
    destruct (extractfile _ m'); try by apply same_but_owners_print.
    destruct (encode _); by apply same_but_owners_print.
  - by apply same_but_owners_print.
Qed.

Lemma chown_same_but_owners e1 e2 owner filename :
  same_but_owners e1 e2 →
  same_but_owners (chown e1 owner filename) (chown e2 owner filename).
Proof.
  intros Hsame. pose proof Hsame as (Hu & Hd & Hm & Hl & Hout).
  unfold chown, lookup_name, resolve. rewrite Hd.
  set (n := normalize_member_name
       (lstrip_by is_slash (normpath (path_join (current_dir e2) filename)))).
  assert (∀ x y, same_file x y → (name x = n ↔ name y = n))
    as HP by (by intros x y (-> & _)).
  pose proof (list_find_related same_file _ _ _ Hm HP) as H.
  destruct (list_find _ (members e1)) as [[i m]|],
           (list_find _ (members e2)) as [[j m']|]; try done.
  - destruct H as [<- Hfile]. split_and!; simpl; try congruence.
    apply Forall2_insert; [done|]. by destruct Hfile as (? & ? & ?).
  - by apply same_but_owners_print.
Qed.

Lemma dispatch_same_outcome e1 e2 args :
  same_but_owners e1 e2 → same_outcome (dispatch e1 args) (dispatch e2 args).
Proof.
  intros Hsame. unfold dispatch. destruct args as [|command operands]; [done|].
  repeat case_bool_decide; repeat case_match; simpl;
    auto using ls_same_but_owners, cd_same_but_owners, head_same_but_owners,
      wc_same_but_owners, chown_same_but_owners, same_but_owners_print.
Qed.

Lemma execute_command_same_outcome e1 e2 line :
  same_but_owners e1 e2 →
  same_outcome (execute_command e1 line) (execute_command e2 line).
Proof.
  intros Hsame. unfold execute_command. apply dispatch_same_outcome.
  destruct Hsame as (Hu & Hd & Hm & Hl & Hout).
  split_and!; simpl; congruence.
Qed.

Lemma shell_loop_same_outcome e1 e2 inputs :
  same_but_owners e1 e2 →
  same_outcome (shell_loop e1 inputs) (shell_loop e2 inputs).
Proof.
  revert e1 e2. induction inputs as [|l inputs IH]; intros e1 e2 Hsame.
  - destruct Hsame as (Hu & Hd & Hm & Hl & Hout). simpl. unfold prompt.
    split; [done|]. split_and!; simpl; congruence.
  - cbn [shell_loop].
    assert (same_but_owners (print_end e1 (prompt e1) [])
                            (print_end e2 (prompt e2) [])) as Hp.
    { destruct Hsame as (Hu & Hd & Hm & Hl & Hout). unfold prompt.
      split_and!; simpl; congruence. }
    pose proof (execute_command_same_outcome _ _ l Hp) as H.
    destruct (execute_command (print_end e1 _ _) l),
             (execute_command (print_end e2 _ _) l); try done.
    by apply IH.
Qed.

Lemma run_script_lines_same_outcome e1 e2 script :
  same_but_owners e1 e2 →
  same_outcome (run_script_lines e1 script) (run_script_lines e2 script).
Proof.
  revert e1 e2. induction script as [|l script IH]; intros e1 e2 Hsame;
    [done|]. cbn [run_script_lines]. case_bool_decide; [by apply IH|].
  pose proof (execute_command_same_outcome _ _ (strip l) Hsame) as Hrun.
  destruct (execute_command e1 (strip l)), (execute_command e2 (strip l));
    try done. by apply IH.
Qed.

(** X11: no command reads an owner: two sessions with the same user,
    script and input over archives that differ at most in the owners of
    their members print the same text, write the same log and end in the
    same directory with the same status. *)
Theorem owners_are_never_read user archive archive' script_path script inputs :
  Forall2 same_file archive archive' →
  same_outcome (main user archive script_path script inputs)
               (main user archive' script_path script inputs)
  ∧ stdout (state_of (main user archive script_path script inputs))
    = stdout (state_of (main user archive' script_path script inputs)).
Proof.
  intros Hfiles.
  assert (same_outcome (main user archive script_path script inputs)
                       (main user archive' script_path script inputs)) as H.
  { destruct script as [script| |]; [|by split; [|split_and!]..].
    unfold main. rewrite !init_start. simpl.
    assert (same_but_owners (start user archive) (start user archive'))
      as Hstart by (by split_and!).
    pose proof (run_script_lines_same_outcome _ _ script Hstart) as H.
    destruct (run_script_lines (start user archive) script),
             (run_script_lines (start user archive') script); try done.
    by apply shell_loop_same_outcome. }
  split; [done|].
  destruct (main user archive _ _ _), (main user archive' _ _ _); try done;
    simpl in *; [by destruct H as (_ & _ & _ & _ & ?)
                |by destruct H as (_ & _ & _ & _ & _ & ?)].
Qed.

Lemma owners_are_never_read_witness :
  same_outcome
    (main (lit "u") test_fs (lit "s") (ScriptLines [lit "ls"])
       [lit "chown bob file1.txt"; lit "wc file1.txt"])
    (main (lit "u") ((λ m, set_uname m (lit "root")) <$> test_fs) (lit "s")
       (ScriptLines [lit "ls"]) [lit "chown bob file1.txt"; lit "wc file1.txt"])
  ∧ stdout (state_of
      (main (lit "u") test_fs (lit "s") (ScriptLines [lit "ls"])
         [lit "chown bob file1.txt"; lit "wc file1.txt"]))
    = stdout (state_of
        (main (lit "u") ((λ m, set_uname m (lit "root")) <$> test_fs)
           (lit "s") (ScriptLines [lit "ls"])
           [lit "chown bob file1.txt"; lit "wc file1.txt"])).
Proof.
  apply (owners_are_never_read (lit "u") test_fs
           ((λ m, set_uname m (lit "root")) <$> test_fs)).
  repeat constructor.
Defined.

(** ** Stored names with and without the prefix *)

(** X12: [ls] and [cd] see the stored names only through
    [normalize_member_name]: over another archive whose members have,
    one by one, the same stripped names, they print the same and lead to
    the same directory. *)
Theorem ls_cd_see_stripped_names e ms' path :
  Forall2 (λ m m', normalize_member_name (name m)
                   = normalize_member_name (name m')) (members e) ms' →
  ls (set_members e ms') = set_members (ls e) ms'
  ∧ cd (set_members e ms') path = set_members (cd e path) ms'.
Proof.
  intros Hall. split.
  - rewrite !ls_eq. unfold ls_names, ls_contents. simpl.
    by rewrite <-(ls_fold_stripped_names _ _ _ _ Hall).
  - unfold cd, resolve. simpl.
    rewrite <-(existsb_stripped_names _ _ _ Hall).
    by repeat case_match.
Qed.

Lemma ls_cd_see_stripped_names_witness :
  ls (set_members dot_slash_emulator
        [test_file "file1.txt" []; test_file "dir1/file3.txt" []])
  = set_members (ls dot_slash_emulator)
      [test_file "file1.txt" []; test_file "dir1/file3.txt" []]
  ∧ cd (set_members dot_slash_emulator
          [test_file "file1.txt" []; test_file "dir1/file3.txt" []])
       (lit "dir1")
    = set_members (cd dot_slash_emulator (lit "dir1"))
        [test_file "file1.txt" []; test_file "dir1/file3.txt" []].
Proof.
  apply (ls_cd_see_stripped_names dot_slash_emulator
           [test_file "file1.txt" []; test_file "dir1/file3.txt" []]
           (lit "dir1")).
  repeat constructor.
Defined.

(** ** White space in a command line *)

Lemma tokens_spaces (ws : str) :
  Forall (λ c, isspace c = true) ws → tokens ws = ([], []).
Proof.
  induction 1 as [|c ws Hc _ IH]; [done|]. simpl. by rewrite IH, Hc.
Qed.

Lemma tokens_app_spaces (s ws : str) :
  Forall (λ c, isspace c = true) ws → tokens (s ++ ws) = tokens s.
Proof.
  intros Hws. induction s as [|c s IH]; simpl.
  - by apply tokens_spaces.
  - by rewrite IH.
Qed.

Lemma split_lstrip (s : str) : split (lstrip_by isspace s) = split s.
Proof.
  unfold lstrip_by. induction s as [|c s IH]; [done|]. simpl.
  destruct (isspace c) eqn:Hc; [|by unfold split; simpl; rewrite Hc].
  rewrite IH. unfold split. simpl. rewrite Hc.
  destruct (tokens s) as [cur rest]. by destruct cur.
Qed.

Lemma dropwhile_split f (s : str) :
  ∃ pre, s = pre ++ dropwhile f s ∧ Forall (λ c, f c = true) pre.
Proof.
  induction s as [|c s (pre & Heq & Hpre)]; simpl.
  - by exists [].
  - destruct (f c) eqn:Hc.
    + exists (c :: pre). split; [by rewrite <-app_comm_cons, <-Heq|].
      by constructor.
    + by exists [].
Qed.

Lemma split_rstrip (s : str) : split (rstrip_by isspace s) = split s.
Proof.
  unfold rstrip_by.
  destruct (dropwhile_split isspace (reverse s)) as (pre & Heq & Hpre).
  assert (s = reverse (dropwhile isspace (reverse s)) ++ reverse pre) as Hs.
  { rewrite <-reverse_app, <-Heq. by rewrite reverse_involutive. }
  rewrite Hs at 2. unfold split.
  rewrite tokens_app_spaces; [done|]. by apply Forall_reverse.
Qed.

Lemma split_strip (s : str) : split (strip s) = split s.
Proof. unfold strip, strip_by. by rewrite split_lstrip, split_rstrip. Qed.

(** X13: only the tokens of a command line matter: two lines that split
    into the same tokens, however much white space stands around and
    between them, leave the same directory, members, output and exit
    status; only the row logged, the line as given, differs. *)
Theorem white_space_is_ignored e line line' :
  split line = split line' →
  effect (execute_command e line) = effect (execute_command e line')
  ∧ log (state_of (execute_command e line)) = log e ++ [[username e; line]].
Proof.
  intros Hsplit. split.
  - unfold execute_command. rewrite !split_strip, Hsplit, !writerow_set_log.
    by rewrite !dispatch_set_log, !effect_on_state_set_log.
  - by destruct (execute_command_log e line) as (_ & ? & _).
Qed.

Lemma white_space_is_ignored_witness :
  effect (execute_command test_emulator (lit "  cd    dir1 "))
  = effect (execute_command test_emulator (lit "cd dir1"))
  ∧ log (state_of (execute_command test_emulator (lit "  cd    dir1 ")))
    = log test_emulator ++ [[username test_emulator; lit "  cd    dir1 "]].
Proof.
  apply (white_space_is_ignored test_emulator (lit "  cd    dir1 ")
           (lit "cd dir1")).
  reflexivity.
Defined.

(** ** Staying where one is *)

Lemma normpath_canonical d : canonical d → normpath d = d.
Proof.
  intros (k & comps & Hk & Hall & ->).
  rewrite normpath_slashes_join; [|done|].
  - by rewrite normpath_fold_ordinary.
  - eapply Forall_impl; [done|]. apply ordinary_segment.
Qed.

Lemma startswith_app_nonempty (a b : str) c :
  a ≠ [] → startswith (a ++ b) [c] = startswith a [c].
Proof. by destruct a. Qed.

Lemma path_join_dot k comps :
  (k = 1 ∨ k = 2)%nat → Forall ordinary comps → comps ≠ [] →
  path_join (replicate k SLASH ++ join_with SLASH comps) DOT
  = replicate k SLASH ++ join_with SLASH comps ++ SLASH :: DOT.
Proof.
  intros Hk Hall Hne. unfold path_join.
  assert (Forall segment comps) as Hseg.
  { eapply Forall_impl; [done|]. apply ordinary_segment. }
  change (startswith DOT [SLASH]) with false. cbn match.
  rewrite bool_decide_eq_false_2 by (by destruct Hk as [-> | ->]).
  unfold endswith. change (reverse [SLASH]) with [SLASH]. cbn [orb].
  destruct (join_segments_last comps Hne Hseg) as (x & Hlast & Hx).
  assert (last (replicate k SLASH ++ join_with SLASH comps) = Some x)
    as [s' Hs']%last_Some by (by rewrite last_app, Hlast).
  rewrite Hs', reverse_snoc. cbn [startswith].
  rewrite (proj2 (N.eqb_neq SLASH x)) by done. cbn [andb].
  by rewrite <-Hs', <-(assoc_L (++)).
Qed.

Lemma normpath_join_dot k comps :
  (k = 1 ∨ k = 2)%nat → Forall ordinary comps →
  normpath (path_join (replicate k SLASH ++ join_with SLASH comps) DOT)
  = replicate k SLASH ++ join_with SLASH comps.
Proof.
  intros Hk Hall.
  destruct (decide (comps = [])) as [->|Hne].
  { by destruct Hk as [-> | ->]. }
  assert (Forall segment comps) as Hseg.
  { eapply Forall_impl; [done|]. apply ordinary_segment. }
  rewrite path_join_dot by done.
  rewrite normpath_unfold by (by destruct Hk as [-> | ->]).
  rewrite initial_slashes_replicate; [|done|].
  2: { rewrite startswith_app_nonempty.
       - by apply join_segments_no_slash_head.
       - destruct (join_segments_last comps Hne Hseg) as (x & Hlast & _).
         intros Heq. by rewrite Heq in Hlast. }
  rewrite split_on_replicate, normpath_fold_empties.
  rewrite split_on_snoc_field, foldl_app.
  rewrite split_on_join; [|done|].
  2: { eapply Forall_impl; [done|]. by intros c (_ & _ & ?). }
  rewrite (normpath_fold_ordinary k [] comps Hall).
  change (split_on SLASH DOT) with [DOT]. cbn [foldl app].
  rewrite normpath_step_skip by (by right).
  rewrite bool_decide_eq_false_2; [done|]. by destruct Hk as [-> | ->].
Qed.

Lemma cd_to_current e path :
  good_dir (members e) (current_dir e) →
  resolve e path = current_dir e → cd e path = e.
Proof.
  intros [_ Hdir] Hres. unfold cd. rewrite Hres.
  case_bool_decide as Hroot; [rewrite <-Hroot; apply set_current_dir_id|].
  destruct Hdir as [?|Hdir]; [done|]. unfold dir_exists in Hdir.
  rewrite Hdir. apply set_current_dir_id.
Qed.

(** X14: in a directory a session can be in, [cd .] and [cd] to the
    current directory itself succeed without a word and change
    nothing. *)
Theorem cd_here_changes_nothing e :
  good_dir (members e) (current_dir e) →
  cd e DOT = e ∧ cd e (current_dir e) = e.
Proof.
  intros Hgood. pose proof Hgood as [Hcan _].
  split; apply cd_to_current; try done; unfold resolve.
  - destruct Hcan as (k & comps & Hk & Hall & ->).
    by apply normpath_join_dot.
  - destruct (canonical_absolute _ Hcan) as [rest Hd].
    assert (path_join (current_dir e) (current_dir e) = current_dir e) as ->.
    { unfold path_join. rewrite Hd. cbn [startswith].
      by rewrite N.eqb_refl. }
    by apply normpath_canonical.
Qed.

Lemma cd_here_changes_nothing_witness :
  cd (cd test_emulator (lit "dir1")) DOT = cd test_emulator (lit "dir1")
  ∧ cd (cd test_emulator (lit "dir1"))
       (current_dir (cd test_emulator (lit "dir1")))
    = cd test_emulator (lit "dir1").
Proof.
  apply (cd_here_changes_nothing (cd test_emulator (lit "dir1"))).
  apply cd_good_dir, root_good_dir.
Defined.

(** ** What [cd] enters, [ls] lists *)

Lemma resolve_child e c k comps :
  (k = 1 ∨ k = 2)%nat → Forall ordinary comps → ordinary c →
  current_dir e = replicate k SLASH ++ join_with SLASH comps →
  resolve e c = path_join (current_dir e) c
  ∧ resolve e c ≠ [SLASH]
  ∧ cd_prefix (resolve e c) = ls_prefix (current_dir e) ++ c ++ [SLASH].
Proof.
  intros Hk Hall Hc Hd.
  assert (Forall segment comps) as Hseg.
  { eapply Forall_impl; [done|]. apply ordinary_segment. }
  assert (Forall segment (comps ++ [c])) as Hseg'.
  { apply Forall_app. split; [done|]. constructor; [|done].
    by apply ordinary_segment. }
  assert (path_join (current_dir e) c
          = replicate k SLASH ++ join_with SLASH (comps ++ [c])) as Hjoin.
  { rewrite Hd.
    by rewrite path_join_segment by (done || by apply ordinary_segment). }
  assert (resolve e c = path_join (current_dir e) c) as Hres.
  { unfold resolve. rewrite Hjoin.
    rewrite normpath_slashes_join by done.
    rewrite normpath_fold_ordinary; [done|].
    apply Forall_app. split; [done | by constructor]. }
  destruct (strip_slashes_join k (comps ++ [c]) Hseg') as [_ Hl].
  split_and!; [done | |].
  - intros Heq. rewrite <-Hjoin, <-Hres, Heq in Hl.
    destruct (join_segments_last (comps ++ [c])) as (x & Hlast & _);
      [by destruct comps | done |].
    by rewrite <-Hl in Hlast.
  - unfold resolve. rewrite cd_prefix_normpath. fold (resolve e c).
    rewrite Hres, Hjoin, Hl. rewrite Hd, ls_prefix_canonical by done.
    destruct (decide (comps = [])) as [->|Hne]; [done|].
    rewrite join_with_snoc by done. by rewrite <-!(assoc_L (++)).
Qed.

(** X15: in a normal absolute current directory and for an ordinary name
    [c], [cd c] succeeds exactly when some stripped member name goes on
    below [c] in the current directory, and then [ls] lists [c];
    otherwise [cd] reports that there is no such file or directory. *)
Theorem cd_enters_what_ls_lists e c :
  canonical (current_dir e) → ordinary c →
  (child_dir e c →
   c ∈ ls_names e ∧ cd e c = set_current_dir e (path_join (current_dir e) c))
  ∧ (¬ child_dir e c →
     cd e c = print e (lit "cd: " ++ c ++ lit ": No such file or directory")).
Proof.
  intros (k & comps & Hk & Hall & Hd) Hc.
  destruct (resolve_child e c k comps Hk Hall Hc Hd) as (Hres & Hroot & Hpre).
  split.
  - intros [_ (m & Hin & Hm)]. split.
    + unfold ls_names. apply sorted_spec. unfold ls_contents.
      apply ls_fold_spec. right.
      apply startswith_prefix in Hm as [tail Hm].
      split; [by destruct Hc as [[? _] _]|].
      exists m, (c ++ SLASH :: tail). split_and!; [done | |].
      * rewrite Hm. by rewrite <-!(assoc_L (++)).
      * split; [by destruct Hc as [(_ & _ & ?) _] | right; by exists tail].
    + unfold cd. rewrite bool_decide_eq_false_2 by done.
      rewrite Hpre, (proj2 (existsb_startswith _ _)); [by rewrite Hres|].
      by exists m.
  - intros Hno. unfold cd. rewrite bool_decide_eq_false_2 by done.
    rewrite Hpre. destruct (existsb _ _) eqn:E; [|done].
    exfalso. apply Hno. split; [done|]. by apply existsb_startswith.
Qed.

Lemma cd_enters_what_ls_lists_witness :
  (child_dir test_emulator (lit "dir2") →
   lit "dir2" ∈ ls_names test_emulator
   ∧ cd test_emulator (lit "dir2")
     = set_current_dir test_emulator
         (path_join (current_dir test_emulator) (lit "dir2")))
  ∧ (¬ child_dir test_emulator (lit "dir2") →
     cd test_emulator (lit "dir2")
     = print test_emulator
         (lit "cd: " ++ lit "dir2" ++ lit ": No such file or directory")).
Proof.
  apply (cd_enters_what_ls_lists test_emulator (lit "dir2")).
  - exists 1%nat, []. split_and!; [by left | constructor | reflexivity].
  - unfold ordinary, segment. apply (bool_decide_unpack _).
    vm_compute. exact I.
Defined.

(** ** Reading a character back *)

(** Arithmetic with the quotients and remainders of the encoder. *)
Ltac div_lia := zify; Z.to_euclidean_division_equations; lia.

Lemma to_N_byte_of_N n : n < 256 → Byte.to_N (byte_of_N n) = n.
Proof.
  intros Hn. unfold byte_of_N. destruct (Byte.of_N n) as [b|] eqn:E.
  - by apply Byte.to_of_N.
  - apply Byte.of_N_None_iff in E. lia.
Qed.

Ltac decide_comparisons :=
  repeat match goal with
         | |- context [N.ltb ?x ?y] => destruct (N.ltb_spec x y); try div_lia
         | |- context [N.leb ?x ?y] => destruct (N.leb_spec x y); try div_lia
         | |- context [N.eqb ?x ?y] => destruct (N.eqb_spec x y); try div_lia
         end.

(** The decoder reads the form of a character back as that character. *)
Lemma utf8_scan_char c form rest :
  encode_char c = Some form →
  utf8_scan Start (form ++ rest) = Some c :: utf8_scan Start rest.
Proof.
  unfold encode_char.
  destruct (N.ltb_spec c 0x80).
  { intros [= <-]. cbn [app utf8_scan decode_byte].
    rewrite to_N_byte_of_N by lia. unfold start_byte.
    destruct (N.ltb_spec c 0x80); [done | lia]. }
  destruct (N.ltb_spec c 0x800).
  { intros [= <-]. cbn [app utf8_scan decode_byte].
    rewrite ?to_N_byte_of_N by div_lia. unfold start_byte.
    decide_comparisons. cbn [app utf8_scan decode_byte].
    rewrite ?to_N_byte_of_N by div_lia.
    decide_comparisons. simpl. do 2 f_equal. div_lia. }
  destruct (N.ltb_spec c 0x10000).
  { destruct (N.leb_spec 0xD800 c), (N.ltb_spec c 0xE000); simpl; try done;
      intros [= <-]; cbn [app utf8_scan decode_byte];
      rewrite ?to_N_byte_of_N by div_lia; unfold start_byte;
      decide_comparisons; cbn [app utf8_scan decode_byte];
      rewrite ?to_N_byte_of_N by div_lia;
      decide_comparisons; cbn [andb app utf8_scan decode_byte];
      rewrite ?to_N_byte_of_N by div_lia;
      decide_comparisons; simpl; do 2 f_equal; div_lia. }
  destruct (N.ltb_spec c 0x110000); [|done].
  intros [= <-]; cbn [app utf8_scan decode_byte];
      rewrite ?to_N_byte_of_N by div_lia; unfold start_byte;
      decide_comparisons; cbn [app utf8_scan decode_byte];
      rewrite ?to_N_byte_of_N by div_lia;
      decide_comparisons; cbn [andb app utf8_scan decode_byte];
      rewrite ?to_N_byte_of_N by div_lia;
      decide_comparisons; cbn [andb app utf8_scan decode_byte];
      rewrite ?to_N_byte_of_N by div_lia;
      decide_comparisons; simpl; do 2 f_equal; div_lia.
Qed.

(** ** The decoder replaces what the definition says *)

Lemma begins_char_prefix p q : p `prefix_of` q → begins_char q → begins_char p.
Proof.
  intros Hpq (c & form & Hc & Hq). exists c, form. split; [done|].
  by etrans.
Qed.

Lemma completes_begins_char k cp lo hi pend :
  completes k cp lo hi pend → lo ≤ hi → hi < 256 → begins_char pend.
Proof.
  revert cp lo hi pend. induction k as [|k IH]; intros cp lo hi pend; [done|].
  intros Hc Hlo Hhi. cbn [completes] in Hc.
  specialize (Hc (byte_of_N lo)). rewrite to_N_byte_of_N in Hc by lia.
  specialize (Hc ltac:(lia)). destruct k as [|k].
  - eexists _, _. split; [done|]. by apply prefix_app_r.
  - apply (begins_char_prefix _ (pend ++ [byte_of_N lo]));
      [by apply prefix_app_r|].
    by apply IH in Hc.
Qed.

Lemma inside_begins_char k cp lo hi pend :
  inside (Need k cp lo hi) pend → begins_char pend.
Proof.
  intros (_ & Hok & Hp & _). simpl in Hok, Hp.
  apply (completes_begins_char k cp lo hi); [done | lia..].
Qed.

(** Where the decoder reports an ill-formed sequence no character
    starts. *)
Lemma scan_None_no_char input out c form :
  utf8_scan Start input = None :: out →
  encode_char c = Some form → ¬ form `prefix_of` input.
Proof.
  intros Hscan Hc [tl ->]. by rewrite (utf8_scan_char c form tl Hc) in Hscan.
Qed.

Lemma utf8_scan_reject k cp lo hi b bs :
  (lo <=? Byte.to_N b) && (Byte.to_N b <=? hi) = false →
  utf8_scan (Need k cp lo hi) (b :: bs) = None :: utf8_scan Start (b :: bs).
Proof.
  intros H. cbn [utf8_scan decode_byte]. rewrite H.
  by destruct (start_byte (Byte.to_N b)).
Qed.

Lemma start_byte_cases b out st :
  start_byte b = (out, st) →
  (out = [Some b] ∧ st = Start ∧ b < 0x80)
  ∨ (out = [None] ∧ st = Start)
  ∨ (out = [] ∧ ∃ k cp lo hi, st = Need k cp lo hi).
Proof.
  unfold start_byte.
  repeat (match goal with
          | |- context [N.ltb ?x ?y] => destruct (N.ltb_spec x y)
          end); intros [= <- <-]; eauto 10.
Qed.

Lemma ill_formed_pending k cp lo hi pend b bs :
  inside (Need k cp lo hi) pend →
  (lo <=? Byte.to_N b) && (Byte.to_N b <=? hi) = false →
  ill_formed pend (b :: bs).
Proof.
  intros Hin Hb. pose proof Hin as (Hne & _ & _ & Hreads).
  split_and!.
  - intros c form. eapply scan_None_no_char.
    by rewrite Hreads, utf8_scan_reject.
  - done.
  - right. by eapply inside_begins_char.
  - intros b' rest' [= <- <-] (c & form & Hc & [tl ->]).
    pose proof (utf8_scan_char c _ [] Hc) as Hscan.
    rewrite app_nil_r, <-!(assoc_L (++)), Hreads in Hscan.
    cbn [app] in Hscan. by rewrite utf8_scan_reject in Hscan.
Qed.

Lemma ill_formed_at_end k cp lo hi pend :
  inside (Need k cp lo hi) pend → ill_formed pend [].
Proof.
  intros Hin. pose proof Hin as (Hne & _ & _ & Hreads).
  split_and!.
  - intros c form. eapply scan_None_no_char. by rewrite Hreads.
  - done.
  - right. by eapply inside_begins_char.
  - by intros b' rest'.
Qed.

(** One byte read at a boundary, given what follows it. *)
Lemma utf8_scan_replaced_start b bs :
  (∀ st pend, inside st pend → replaced (pend ++ bs) (text_of (utf8_scan st bs))) →
  replaced (b :: bs) (text_of (utf8_scan Start (b :: bs))).
Proof.
  intros IH. cbn [utf8_scan decode_byte].
  destruct (start_byte (Byte.to_N b)) as [out st] eqn:Hsb.
  destruct (start_byte_cases _ _ _ Hsb)
    as [(-> & -> & Hb)|[(-> & ->)|(-> & k & cp & lo & hi & ->)]].
  - apply (replaced_char _ [b] bs); [by apply encode_char_1|].
    by apply (IH Start []).
  - apply (replaced_ill_formed [b] bs); [|by apply (IH Start [])].
    assert (∀ x, utf8_scan Start (b :: x) = None :: utf8_scan Start x) as Hscan.
    { intros x. cbn [utf8_scan decode_byte]. by rewrite Hsb. }
    split_and!.
    + intros c form. eapply scan_None_no_char. apply Hscan.
    + done.
    + by left.
    + intros b' rest' _ (c & form & Hc & [tl ->]).
      pose proof (utf8_scan_char c _ [] Hc) as H.
      rewrite app_nil_r in H. cbn [app] in H. by rewrite Hscan in H.
  - apply (IH (Need k cp lo hi) [b]).
    destruct (start_byte_ok _ _ _ Hsb) as [Hok _].
    destruct (start_byte_pending b [] _ Hsb) as [([=] & _)|[_ Hp]]; [done|].
    split_and!; [done..|].
    intros rest. cbn [app utf8_scan decode_byte]. by rewrite Hsb.
Qed.

Lemma utf8_scan_replaced bs st pend :
  inside st pend → replaced (pend ++ bs) (text_of (utf8_scan st bs)).
Proof.
  revert st pend. induction bs as [|b bs IH]; intros st pend Hin.
  - destruct st as [|k cp lo hi]; simpl in Hin.
    + subst. constructor.
    + apply (replaced_ill_formed pend [] []); [|constructor].
      by eapply ill_formed_at_end.
  - pose proof (utf8_scan_replaced_start b bs IH) as Hstart.
    destruct st as [|k cp lo hi]; [by simpl in Hin; subst|].
    destruct ((lo <=? Byte.to_N b) && (Byte.to_N b <=? hi)) eqn:Hb.
    2: { rewrite utf8_scan_reject by done.
         apply (replaced_ill_formed pend (b :: bs)); [|done].
         by eapply ill_formed_pending. }
    pose proof Hin as (Hne & Hok & Hp & Hreads).
    destruct (decode_byte (Need k cp lo hi) (Byte.to_N b)) as [out st']
      eqn:Hstep.
    assert (∀ x, utf8_scan (Need k cp lo hi) (b :: x) = out ++ utf8_scan st' x)
      as Hscan.
    { intros x. cbn [utf8_scan]. by rewrite Hstep. }
    rewrite Hscan.
    destruct (decode_byte_ok _ _ _ _ Hok Hstep) as [Hok' _].
    assert (Forall is_Some out) as Hout.
    { revert Hstep. cbn [decode_byte]. rewrite Hb.
      destruct k as [|[|k]]; intros [= <- <-]; repeat constructor; by eexists. }
    destruct (decode_byte_pending _ pend b _ _ Hp Hstep Hout)
      as [(c & -> & -> & Henc)|[-> Hp']].
    + rewrite (cons_middle b), (assoc_L (++)).
      apply (replaced_char c (pend ++ [b]) bs _ Henc). by apply (IH Start []).
    + rewrite (cons_middle b), (assoc_L (++)). apply IH.
      destruct st' as [|k' cp' lo' hi'].
      { revert Hstep. cbn [decode_byte]. rewrite Hb.
        by destruct k as [|[|k]]. }
      split_and!; [by destruct pend | done | done |].
      intros rest. rewrite <-(assoc_L (++)). cbn [app].
      by rewrite Hreads, Hscan.
Qed.

(** The decoder with replacement gives the text the definition
    describes. *)
Lemma decode_replace_replaced bs : replaced bs (decode_replace bs).
Proof. exact (utf8_scan_replaced bs Start [] eq_refl). Qed.

(** ** The text is determined *)

Lemma encode_char_functional c c' form rest rest' :
  encode_char c = Some form → ∀ form', encode_char c' = Some form' →
  form ++ rest = form' ++ rest' → c = c' ∧ form = form' ∧ rest = rest'.
Proof.
  intros Hc form' Hc' Heq.
  pose proof (utf8_scan_char c form rest Hc) as H.
  rewrite Heq, (utf8_scan_char c' form' rest' Hc') in H.
  injection H as -> _. rewrite Hc in Hc'. injection Hc' as <-.
  by apply app_inv_head in Heq.
Qed.

Lemma encode_char_nonempty c : encode_char c ≠ Some [].
Proof.
  intros Hc. by pose proof (utf8_scan_char c [] [] Hc).
Qed.

Lemma ill_formed_longer p rest p' rest' b k :
  ill_formed p rest → ill_formed p' rest' →
  p' = p ++ b :: k → rest = (b :: k) ++ rest' → False.
Proof.
  intros (_ & Hne & _ & Hmax) (_ & _ & Hlen & _) -> ->.
  apply (Hmax b (k ++ rest') eq_refl).
  destruct Hlen as [Hlen|Hbegins].
  - rewrite length_app in Hlen. simpl in Hlen. destruct p; [done|].
    simpl in Hlen. lia.
  - apply (begins_char_prefix _ (p ++ b :: k)); [|done].
    apply prefix_app, prefix_cons, prefix_nil.
Qed.

Lemma ill_formed_same_piece p rest p' rest' :
  ill_formed p rest → ill_formed p' rest' →
  p ++ rest = p' ++ rest' → p = p' ∧ rest = rest'.
Proof.
  intros Hp Hp' Heq.
  destruct (app_eq_inv _ _ _ _ Heq) as [(k & -> & ->)|(k & -> & ->)];
    (destruct k as [|b k]; [by rewrite app_nil_r|exfalso]).
  - by eapply (ill_formed_longer p' _ (p' ++ b :: k)).
  - by eapply (ill_formed_longer p _ (p ++ b :: k)).
Qed.

Lemma replaced_inv bs s :
  replaced bs s →
  (bs = [] ∧ s = [])
  ∨ (∃ c form rest s0, bs = form ++ rest ∧ s = c :: s0
       ∧ encode_char c = Some form ∧ replaced rest s0)
  ∨ (∃ p rest s0, bs = p ++ rest ∧ s = REPLACEMENT :: s0
       ∧ ill_formed p rest ∧ replaced rest s0).
Proof. destruct 1; eauto 12. Qed.

(** Decoding with replacement has one result. *)
Lemma replaced_unique bs s s' : replaced bs s → replaced bs s' → s = s'.
Proof.
  intros H. revert s'.
  induction H as [|c form rest s Hc _ IH|p rest s Hp _ IH]; intros s' H'.
  - destruct (replaced_inv _ _ H')
      as [[_ ->]|[(c & form & rest & s0 & Heq & -> & Hc & _)
                 |(p & rest & s0 & Heq & -> & Hp & _)]]; [done|exfalso..].
    + symmetry in Heq. apply app_eq_nil in Heq as [-> _].
      by apply encode_char_nonempty in Hc.
    + symmetry in Heq. apply app_eq_nil in Heq as [-> _].
      by destruct Hp as (_ & ? & _).
  - destruct (replaced_inv _ _ H')
      as [[Heq _]|[(c' & form' & rest' & s0 & Heq & -> & Hc' & Hrest)
                 |(p & rest' & s0 & Heq & -> & Hp & _)]].
    + exfalso. apply app_eq_nil in Heq as [-> _].
      by apply encode_char_nonempty in Hc.
    + destruct (encode_char_functional _ _ _ _ _ Hc _ Hc' Heq)
        as (-> & -> & ->).
      f_equal. by apply IH.
    + exfalso. destruct Hp as (Hno & _). apply (Hno c form Hc).
      rewrite <-Heq. by apply prefix_app_r.
  - destruct (replaced_inv _ _ H')
      as [[Heq _]|[(c' & form' & rest' & s0 & Heq & -> & Hc' & Hrest)
                 |(p' & rest' & s0 & Heq & -> & Hp' & Hrest)]].
    + exfalso. apply app_eq_nil in Heq as [-> _].
      by destruct Hp as (_ & ? & _).
    + exfalso. destruct Hp as (Hno & _). apply (Hno c' form' Hc').
      rewrite Heq. by apply prefix_app_r.
    + destruct (ill_formed_same_piece _ _ _ _ Hp Hp' Heq) as [-> ->].
      f_equal. by apply IH.
Qed.

Lemma replaced_decode_replace bs s : replaced bs s → s = decode_replace bs.
Proof.
  intros H. apply (replaced_unique bs); [done | apply decode_replace_replaced].
Qed.

(** ** Words *)

Lemma delimited_more_space c text words :
  isspace c = true → delimited text words → delimited (c :: text) words.
Proof.
  intros Hc [gap Hgap|gap w rest ws Hgap Hw Hend Hrest].
  - apply delimited_blank. by apply Forall_cons.
  - apply (delimited_word (c :: gap)); [by apply Forall_cons | done..].
Qed.

Lemma tokens_delimited (s : str) :
  Forall (λ c, isspace c = false) (tokens s).1
  ∧ ∃ rest, s = (tokens s).1 ++ rest ∧ word_ends rest
            ∧ delimited rest (tokens s).2.
Proof.
  induction s as [|c s (Hcur & rest & Heq & Hend & Hrest)]; simpl.
  - split; [done|]. exists []. split_and!; [done | by left |].
    apply delimited_blank. by apply Forall_nil.
  - destruct (tokens s) as [cur words]. simpl in *.
    destruct (isspace c) eqn:Hc; simpl.
    + split; [done|]. exists (c :: s). split_and!; [done | right; eauto |].
      rewrite Heq. destruct cur as [|d cur]; simpl.
      * by apply delimited_more_space.
      * apply (delimited_word [c] (d :: cur) rest);
          [by apply Forall_singleton | done | done | done].
    + split; [by constructor|]. exists rest. by rewrite Heq.
Qed.

(** [split] gives the white-space-delimited tokens. *)
Lemma split_delimited (s : str) : delimited s (split s).
Proof.
  unfold split.
  destruct (tokens_delimited s) as (Hcur & rest & Heq & Hend & Hrest).
  destruct (tokens s) as [cur words]. simpl in *.
  destruct cur as [|d cur]; simpl in *; [by subst|].
  rewrite Heq. by apply (delimited_word [] (d :: cur) rest); [apply Forall_nil|..].
Qed.

Lemma split_blank_app gap (s : str) : blank gap → split (gap ++ s) = split s.
Proof.
  induction 1 as [|c gap Hc _ IH]; [done|].
  unfold split in *. simpl. rewrite Hc.
  destruct (tokens (gap ++ s)) as [cur words].
  destruct (tokens s) as [cur' words']. by destruct cur.
Qed.

Lemma tokens_solid_app w (rest : str) :
  Forall (λ c, isspace c = false) w → word_ends rest →
  tokens (w ++ rest) = (w, split rest).
Proof.
  intros Hw Hend. induction Hw as [|c w Hc _ IH]; simpl.
  - unfold split. destruct Hend as [->|(c & rest' & -> & Hc)]; [done|].
    simpl. rewrite Hc. by destruct (tokens rest').
  - by rewrite IH, Hc.
Qed.

(** The white-space-delimited tokens of a text are what [split]
    returns, and nothing else. *)
Lemma delimited_split (s : str) words : delimited s words → words = split s.
Proof.
  induction 1 as [gap Hgap|gap w rest words Hgap [Hne Hw] Hend _ IH].
  - unfold split. by rewrite (tokens_spaces gap Hgap).
  - rewrite split_blank_app by done. unfold split at 1.
    rewrite (tokens_solid_app w rest Hw Hend). subst words.
    by destruct w.
Qed.

(** ** What [wc] prints *)

Lemma encode_forms (s : str) encoded :
  encode s = Some encoded →
  ∃ forms, mapM encode_char s = Some forms ∧ encoded = concat forms.
Proof.
  unfold encode. destruct (mapM encode_char s) as [forms|]; [|done].
  intros [= <-]. by exists forms.
Qed.

Lemma wc_of_file e filename member f :
  getmember (members e) (lookup_name e filename) = Some member →
  extractfile (members e) member = FileObject f →
  ∃ forms,
    mapM encode_char (decode_replace f) = Some forms
    ∧ wc e filename
      = print e (str_of_nat (length (filter (λ c, c = LF) (decode_replace f)))
                 ++ lit " "
                 ++ str_of_nat (length (split (decode_replace f))) ++ lit " "
                 ++ str_of_nat (length (concat forms)) ++ lit " " ++ filename).
Proof.
  intros Hm Hf. destruct (encode_decode_replace f) as [encoded Henc].
  destruct (encode_forms _ _ Henc) as (forms & Hforms & ->).
  exists forms. split; [done|]. unfold wc. by rewrite Hm, Hf, Henc.
Qed.

(** C3: for an existing file, [wc] reads the bytes as UTF-8 with each
    ill-formed sequence replaced by U+FFFD, which never fails, and
    prints the number of newline characters of that text, the number of
    its white-space-delimited tokens, the number of bytes of its UTF-8
    form and the file name as given; the text and its tokens are
    determined by the bytes; for an empty file it prints [0 0 0] and the
    name. *)
Theorem wc_counts e filename member f :
  getmember (members e) (lookup_name e filename) = Some member →
  extractfile (members e) member = FileObject f →
  ∃ content words forms,
    replaced f content
    ∧ (∀ content', replaced f content' → content' = content)
    ∧ delimited content words
    ∧ (∀ words', delimited content words' → words' = words)
    ∧ mapM encode_char content = Some forms
    ∧ wc e filename
      = print e (str_of_nat (length (filter (λ c, c = LF) content))
                 ++ lit " " ++ str_of_nat (length words) ++ lit " "
                 ++ str_of_nat (length (concat forms)) ++ lit " " ++ filename)
    ∧ (f = [] → wc e filename = print e (lit "0 0 0 " ++ filename)).
Proof.
  intros Hm Hf. destruct (wc_of_file e filename member f Hm Hf)
    as (forms & Hforms & Hwc).
  exists (decode_replace f), (split (decode_replace f)), forms.
  split_and!.
  - apply decode_replace_replaced.
  - apply replaced_decode_replace.
  - apply split_delimited.
  - apply delimited_split.
  - done.
  - done.
  - intros ->. rewrite Hwc. by injection Hforms as <-.
Qed.

Lemma wc_counts_witness :
  ∃ content words forms,
    replaced [xff; xfe] content
    ∧ (∀ content', replaced [xff; xfe] content' → content' = content)
    ∧ delimited content words
    ∧ (∀ words', delimited content words' → words' = words)
    ∧ mapM encode_char content = Some forms
    ∧ wc test_emulator (lit "binaryfile")
      = print test_emulator
          (str_of_nat (length (filter (λ c, c = LF) content))
           ++ lit " " ++ str_of_nat (length words) ++ lit " "
           ++ str_of_nat (length (concat forms)) ++ lit " "
           ++ lit "binaryfile")
    ∧ ([xff; xfe] = [] →
       wc test_emulator (lit "binaryfile")
       = print test_emulator (lit "0 0 0 " ++ lit "binaryfile")).
Proof.
  apply (wc_counts test_emulator (lit "binaryfile")
           (7%nat, test_file "binaryfile" [xff; xfe])); reflexivity.
Defined.

(** Two bytes that begin no character are two ill-formed sequences;
    a sequence cut short is one. *)
Example replaced_tests :
  replaced [xff; xfe] [REPLACEMENT; REPLACEMENT]
  ∧ replaced [xe2; x82; x41] [REPLACEMENT; 0x41]
  ∧ replaced [xe2; x82; xac; xf0; x9f] [0x20AC; REPLACEMENT]
  ∧ replaced [xe0; x80] [REPLACEMENT; REPLACEMENT].
Proof.
  split_and!.
  - exact (decode_replace_replaced [xff; xfe]).
  - exact (decode_replace_replaced [xe2; x82; x41]).
  - exact (decode_replace_replaced [xe2; x82; xac; xf0; x9f]).
  - exact (decode_replace_replaced [xe0; x80]).
Qed.



(** ** Two slashes *)

(** C1 (the code at the failing input): a path of two slashes is
    resolved to two slashes, which [cd] does not take for the root: it
    looks for a member whose stripped name starts with a slash and,
    finding none, reports that there is no such file or directory;
    [ls] reads the same two slashes as the root. *)
Theorem cd_two_slashes_is_not_the_root e :
  Forall (λ m, startswith (normalize_member_name (name m)) [SLASH] = false)
         (members e) →
  resolve e (lit "//") = lit "//"
  ∧ cd e (lit "//") = print e (lit "cd: //: No such file or directory")
  ∧ ls_prefix (lit "//") = ls_prefix [SLASH].
Proof.
  intros Hall.
  assert (resolve e (lit "//") = lit "//") as Hres by done.
  split_and!; [done | | done].
  unfold cd. rewrite Hres. rewrite bool_decide_eq_false_2 by done.
  assert (existsb (λ member, startswith (normalize_member_name (name member))
                                (cd_prefix (lit "//"))) (members e) = false)
    as ->; [|done].
  change (cd_prefix (lit "//")) with [SLASH].
  induction Hall as [|m ms Hm _ IH]; [done|]. simpl in *. by rewrite Hm, IH.
Qed.

Lemma cd_two_slashes_is_not_the_root_witness :
  resolve test_emulator (lit "//") = lit "//"
  ∧ cd test_emulator (lit "//")
    = print test_emulator (lit "cd: //: No such file or directory")
  ∧ ls_prefix (lit "//") = ls_prefix [SLASH].
Proof.
  apply (cd_two_slashes_is_not_the_root test_emulator).
  apply (bool_decide_unpack _). vm_compute. exact I.
Defined.

(** From the root, [cd //dir1] enters [//dir1], where [ls] lists what
    it lists in [/dir1]; [cd ..] from there is refused, and [cd /]
    leads back to the root. *)
Example cd_two_slashes_tests :
  current_dir (cd test_emulator (lit "//dir1")) = lit "//dir1"
  ∧ stdout (ls (cd test_emulator (lit "//dir1")))
    = stdout (ls (cd test_emulator (lit "/dir1")))
  ∧ cd (cd test_emulator (lit "//dir1")) (lit "..")
    = print (cd test_emulator (lit "//dir1"))
        (lit "cd: ..: No such file or directory")
  ∧ cd (cd test_emulator (lit "//dir1")) (lit "/") = test_emulator
  ∧ cd (cd test_emulator (lit "/dir1")) (lit "..") = test_emulator.
Proof. by vm_compute. Qed.
